(** * IO_economics: equilibrium and simulation layer

    A shallow embedding of the evaluation functions of
    [modules/market_structures.py], [modules/price_competition.py],
    [modules/auction_theory.py], [modules/game_theory.py] and
    [modules/network_effects.py].

    Numbers.  The Python code computes on floats (and on the integers a
    caller passes).  They are embedded as exact rationals [Q]: every
    arithmetic operation is the exact one, [==] is equality of values and
    the Python comparisons [>=], [>] are [Qle_bool] and its negation.
    Rounding, overflow, infinities and NaN are outside the model.

    Errors.  A Python exception ([ZeroDivisionError], [IndexError]) is the
    result [None]. *)

From Stdlib Require Import String QArith Qround Lqa Lia List Bool ZArith Arith.
From Stdlib Require Import DecimalString Sorted.
From Stdlib Require Import PrimFloat.
Import ListNotations.

Open Scope Q_scope.

(** ** Shared numeric helpers *)

(** Python's [x >= y] and [x > y] on numbers. *)
Definition geb (x y : Q) : bool := Qle_bool y x.
Definition gtb (x y : Q) : bool := negb (Qle_bool x y).

(** Python's [max(x, y)]: the first argument unless the second is larger. *)
Definition pymax (x y : Q) : Q := if gtb y x then y else x.
(** Python's [min(x, y)]: the first argument unless the second is smaller. *)
Definition pymin (x y : Q) : Q := if gtb x y then y else x.

(** Python's [x / y], which raises [ZeroDivisionError] at [y = 0]. *)
Definition pydiv (x y : Q) : option Q :=
  if Qeq_bool y 0 then None else Some (x / y).

(** Python's [str(n)] on an integer, as an f-string renders it. *)
Definition py_str (n : Z) : string := NilZero.string_of_int (Z.to_int n).

(** A small error monad for the code paths that can raise. *)
Definition bind {A B : Type} (m : option A) (k : A -> option B) : option B :=
  match m with
  | Some x => k x
  | None => None
  end.

Notation "x <- m ;; k" := (bind m (fun x => k))
  (at level 61, m at next level, right associativity).

(** ** modules/market_structures.py *)

Module MarketStructures.

(** The result dictionary of [perfect_competition] and [monopoly];
    [deadweight_loss] is a key of the monopoly result only. *)
Record EquilibriumResult := mkEquilibrium {
  price : Q;
  quantity : Q;
  consumer_surplus : Q;
  producer_surplus : Q;
  total_surplus : Q;
  deadweight_loss : option Q;
  market_type : string
}.

Definition perfect_competition (a b mc : Q) : option EquilibriumResult :=
  q_eq <- pydiv (a - mc) b ;;
  let p_eq := mc in
  let consumer_surplus := (1 # 2) * q_eq * (a - p_eq) in
  let producer_surplus := 0 in
  Some (mkEquilibrium p_eq q_eq consumer_surplus producer_surplus
          (consumer_surplus + producer_surplus) None
          "Perfect Competition").

Definition monopoly (a b mc : Q) : option EquilibriumResult :=
  q_eq <- pydiv (a - mc) (2 * b) ;;
  let p_eq := a - b * q_eq in
  let consumer_surplus := (1 # 2) * q_eq * (a - p_eq) in
  let producer_surplus := (p_eq - mc) * q_eq in
  q_competitive <- pydiv (a - mc) b ;;
  let deadweight_loss := (1 # 2) * b * (q_competitive - q_eq) ^ 2 in
  Some (mkEquilibrium p_eq q_eq consumer_surplus producer_surplus
          (consumer_surplus + producer_surplus)
          (Some deadweight_loss) "Monopoly").

(** The result dictionary of [cournot_oligopoly]. *)
Module Oligopoly.
Record Result := mk {
  price : Q;
  quantity : Q;
  quantity_per_firm : Q;
  profit_per_firm : Q;
  consumer_surplus : Q;
  producer_surplus : Q;
  total_surplus : Q;
  n_firms : Z;
  market_type : string
}.
End Oligopoly.

(** [n_firms] is the integer the caller passes; nothing checks its sign. *)
Definition cournot_oligopoly (a b mc : Q) (n_firms : Z)
  : option Oligopoly.Result :=
  let n := inject_Z n_firms in
  q_per_firm <- pydiv (a - mc) (b * (n + 1)) ;;
  let q_total := n * q_per_firm in
  let p_eq := a - b * q_total in
  let profit_per_firm := (p_eq - mc) * q_per_firm in
  let total_producer_surplus := n * profit_per_firm in
  let consumer_surplus := (1 # 2) * q_total * (a - p_eq) in
  Some (Oligopoly.mk p_eq q_total q_per_firm profit_per_firm
          consumer_surplus total_producer_surplus
          (consumer_surplus + total_producer_surplus) n_firms
          ("Cournot Oligopoly (" ++ py_str n_firms ++ " firms)")).

(** The result dictionary of [monopolistic_competition]. *)
Module Monopolistic.
Record Result := mk {
  price : Q;
  quantity : Q;
  consumer_surplus : Q;
  producer_surplus : Q;
  total_surplus : Q;
  markup : Q;
  market_type : string
}.
End Monopolistic.


(** The dictionary of [compare_market_structures], in insertion order; the
    third key is an f-string of [n_firms]. *)
Record Comparison := mkComparison {
  compared_competition : EquilibriumResult;
  compared_monopoly : EquilibriumResult;
  oligopoly_key : string;
  compared_oligopoly : Oligopoly.Result;
  compared_monopolistic : Monopolistic.Result
}.


End MarketStructures.

(** ** modules/price_competition.py *)

Module PriceCompetition.

Record BertrandResult := mkBertrand {
  price1 : Q;
  price2 : Q;
  quantity1 : Q;
  quantity2 : Q;
  profit1 : Q;
  profit2 : Q;
  total_quantity : Q;
  consumer_surplus : Q;
  differentiation : Q;
  competition_type : string
}.

(** The function has no check on [gamma]; the only way it fails is the
    division by [b * denominator]. *)
Definition bertrand_competition (mc1 mc2 a b gamma : Q)
  : option BertrandResult :=
  let denominator := 4 - gamma ^ 2 in
  p1 <- pydiv (2 * a + 2 * b * mc1 + gamma * b * mc2) (b * denominator) ;;
  p2 <- pydiv (2 * a + 2 * b * mc2 + gamma * b * mc1) (b * denominator) ;;
  let q1 := a - b * p1 + gamma * b * p2 in
  let q2 := a - b * p2 + gamma * b * p1 in
  let profit1 := (p1 - mc1) * q1 in
  let profit2 := (p2 - mc2) * q2 in
  let consumer_surplus :=
    (1 # 2) * b * (q1 ^ 2 + q2 ^ 2) + gamma * b * q1 * q2 in
  Some (mkBertrand p1 p2 q1 q2 profit1 profit2 (q1 + q2) consumer_surplus
          gamma "Bertrand").

(** The result dictionary of [cournot_competition] and
    [stackelberg_competition]; [leader] is a key of the Stackelberg result
    only. *)
Module Quantity.
Record Result := mk {
  price1 : Q;
  price2 : Q;
  quantity1 : Q;
  quantity2 : Q;
  profit1 : Q;
  profit2 : Q;
  market_price : Q;
  total_quantity : Q;
  consumer_surplus : Q;
  leader : option string;
  competition_type : string
}.
End Quantity.


(** Every [leader] other than the string ['Firm 1'] takes the else branch. *)
Definition stackelberg_competition (mc1 mc2 a b : Q) (leader : string)
  : option Quantity.Result :=
  q12 <- (if String.eqb leader "Firm 1" then
            q1 <- pydiv (a - 2 * mc1 + mc2) (2 * b) ;;
            q2 <- pydiv (a - mc2 - b * q1) (2 * b) ;;
            Some (q1, q2)
          else
            q2 <- pydiv (a - 2 * mc2 + mc1) (2 * b) ;;
            q1 <- pydiv (a - mc1 - b * q2) (2 * b) ;;
            Some (q1, q2)) ;;
  let q1 := fst q12 in
  let q2 := snd q12 in
  let price := a - b * (q1 + q2) in
  let profit1 := (price - mc1) * q1 in
  let profit2 := (price - mc2) * q2 in
  let total_quantity := q1 + q2 in
  let consumer_surplus := (1 # 2) * total_quantity * (a - price) in
  Some (Quantity.mk price price q1 q2 profit1 profit2 price total_quantity
          consumer_surplus (Some leader) "Stackelberg").

(** The dictionary of [compare_competition_types], in insertion order. *)
Record Comparison := mkComparison {
  compared_bertrand : BertrandResult;
  compared_cournot : Quantity.Result;
  compared_stackelberg1 : Quantity.Result;
  compared_stackelberg2 : Quantity.Result
}.


End PriceCompetition.

(** ** modules/auction_theory.py *)

Module AuctionTheory.

(** The result dictionary shared by the auction formats.  The keys
    [payment], [bids], [final_price] and [valuations] are present in some
    results only. *)
Record AuctionResult := mkAuction {
  winner : option nat;
  winning_bid : Q;
  payment : option Q;
  revenue : Q;
  winner_surplus : Q;
  efficiency : Q;
  bids : option (list Q);
  final_price : option Q;
  valuations : option (list Q);
  auction_type : string
}.

(** [np.where(arr >= x)[0]]: the indices, in increasing order, of the
    entries of [arr] that are at least [x]. *)
Definition where_ge (arr : list Q) (x : Q) : list nat :=
  filter (fun i => geb (nth i arr 0) x) (seq 0 (length arr)).

(** [arr[idx]] for an index array [idx]. *)
Definition take (arr : list Q) (idx : list nat) : list Q :=
  map (fun i => nth i arr 0) idx.

(** [arr[arr >= x]]: the entries themselves. *)
Definition select_ge (arr : list Q) (x : Q) : list Q :=
  filter (fun v => geb v x) arr.

(** [np.argmax]: the index of the first occurrence of the maximum. *)
Fixpoint argmax_from (best_i : nat) (best : Q) (i : nat) (l : list Q) : nat :=
  match l with
  | [] => best_i
  | x :: t =>
      if gtb x best then argmax_from i x (S i) t
      else argmax_from best_i best (S i) t
  end.

Definition argmax (l : list Q) : nat :=
  match l with
  | [] => 0%nat
  | x :: t => argmax_from 0 x 1 t
  end.

(** [np.sort]: ascending order. *)
Fixpoint insert_sorted (x : Q) (l : list Q) : list Q :=
  match l with
  | [] => [x]
  | y :: t => if Qle_bool x y then x :: l else y :: insert_sorted x t
  end.

Fixpoint np_sort (l : list Q) : list Q :=
  match l with
  | [] => []
  | x :: t => insert_sorted x (np_sort t)
  end.

(** [arr[-2]] of an array with at least two entries. *)
Definition second_last (arr : list Q) : Q :=
  nth (length arr - 2) arr 0.

(** [np.partition(arr, -2)[-2]]: the entry that the sorted array has at
    position [-2]. *)
Definition partition_second_last (arr : list Q) : Q :=
  second_last (np_sort arr).

Definition second_price_sealed_bid (valuations : list Q) (reserve_price : Q)
  : AuctionResult :=
  let bids := valuations in
  let feasible_bidders := where_ge bids reserve_price in
  if (length feasible_bidders =? 0)%nat then
    mkAuction None 0 None 0 0 0 (Some bids) None None
      "Second-Price Sealed-Bid"
  else
    let feasible_bids := take bids feasible_bidders in
    let winner_idx := nth (argmax feasible_bids) feasible_bidders 0%nat in
    let payment :=
      if (1 <? length feasible_bids)%nat
      then partition_second_last feasible_bids
      else reserve_price in
    let payment := pymax payment reserve_price in
    let winner_surplus := nth winner_idx valuations 0 - payment in
    let efficiency := 1 in
    mkAuction (Some winner_idx) (nth winner_idx valuations 0) (Some payment)
      payment winner_surplus efficiency (Some bids) None (Some valuations)
      "Second-Price Sealed-Bid".

(** The ascending-price [while] loop.  Python's loop has no bound of its
    own; [fuel] counts the iterations allowed, and [None] is "still
    running when the fuel is spent". *)
Fixpoint english_loop (fuel : nat) (valuations : list Q) (increment : Q)
    (active_bidders : list nat) (current_price : Q)
  : option (list nat * Q) :=
  if (1 <? length active_bidders)%nat then
    match fuel with
    | O => None
    | S fuel' =>
        english_loop fuel' valuations increment
          (filter (fun i => geb (nth i valuations 0) (current_price + increment))
                  active_bidders)
          (current_price + increment)
    end
  else Some (active_bidders, current_price).

Definition english_auction (fuel : nat) (valuations : list Q)
    (reserve_price increment : Q) : option AuctionResult :=
  let active_bidders := where_ge valuations reserve_price in
  if (length active_bidders =? 0)%nat then
    Some (mkAuction None 0 None 0 0 0 None (Some reserve_price) None
            "English Auction")
  else
    st <- english_loop fuel valuations increment active_bidders reserve_price ;;
    let '(active_bidders, current_price) := st in
    if (length active_bidders =? 0)%nat then
      Some (mkAuction None 0 None 0 0 0 None (Some current_price) None
              "English Auction")
    else
      let winner_idx := nth 0 active_bidders 0%nat in
      let sorted_valuations := np_sort (select_ge valuations reserve_price) in
      let payment :=
        if (1 <? length sorted_valuations)%nat
        then second_last sorted_valuations + increment
        else reserve_price in
      let winner_surplus := nth winner_idx valuations 0 - payment in
      let efficiency := 1 in
      Some (mkAuction (Some winner_idx) (nth winner_idx valuations 0)
              (Some payment) payment winner_surplus efficiency None
              (Some payment) (Some valuations) "English Auction").

(** The equilibrium bid scales every valuation by [(n - 1) / n]; the
    division raises on an empty array, before the reserve-price guard. *)
Definition first_price_sealed_bid (valuations : list Q) (reserve_price : Q)
  : option AuctionResult :=
  let n_bidders := inject_Z (Z.of_nat (length valuations)) in
  shading <- pydiv (n_bidders - 1) n_bidders ;;
  let equilibrium_bids := map (fun v => shading * v) valuations in
  let feasible_bids := select_ge equilibrium_bids reserve_price in
  let feasible_bidders := where_ge equilibrium_bids reserve_price in
  if (length feasible_bids =? 0)%nat then
    Some (mkAuction None 0 None 0 0 0 (Some equilibrium_bids) None None
            "First-Price Sealed-Bid")
  else
    let winner_idx := nth (argmax feasible_bids) feasible_bidders 0%nat in
    let winning_bid := nth (argmax feasible_bids) feasible_bids 0 in
    let winner_surplus := nth winner_idx valuations 0 - winning_bid in
    let efficiency :=
      if (winner_idx =? argmax valuations)%nat then 1 else 0 in
    Some (mkAuction (Some winner_idx) winning_bid None winning_bid
            winner_surplus efficiency (Some equilibrium_bids) None
            (Some valuations) "First-Price Sealed-Bid").

(** The [for] loop of [dutch_auction] over [sorted_indices]: each bidder is
    asked once, at the price of their turn, and the price falls by
    [decrement] after every refusal.  [valuations[bidder_idx]] raises on an
    index out of range. *)
Fixpoint dutch_loop (sorted_indices : list nat) (valuations : list Q)
    (decrement current_price : Q) : option AuctionResult :=
  match sorted_indices with
  | [] =>
      Some (mkAuction None 0 None 0 0 0 None (Some current_price) None
              "Dutch Auction")
  | bidder_idx :: rest =>
      v <- nth_error valuations bidder_idx ;;
      if Qle_bool current_price v then
        let winner_idx := bidder_idx in
        let winning_price := current_price in
        let winner_surplus := v - winning_price in
        let efficiency :=
          if (winner_idx =? argmax valuations)%nat then 1 else 0 in
        Some (mkAuction (Some winner_idx) winning_price None winning_price
                winner_surplus efficiency None (Some winning_price)
                (Some valuations) "Dutch Auction")
      else dutch_loop rest valuations decrement (current_price - decrement)
  end.

(** [sorted_indices] stands for [np.argsort(valuations)[::-1]], the bidders
    from the highest valuation down; numpy leaves the order among equal
    valuations to its sorting algorithm, so the index array is an argument
    here. *)
Definition dutch_auction (sorted_indices : list nat) (valuations : list Q)
    (starting_price decrement : Q) : option AuctionResult :=
  dutch_loop sorted_indices valuations decrement starting_price.


(** The dictionary of [compare_auction_mechanisms], in insertion order. *)
Record Comparison := mkComparison {
  compared_first_price : AuctionResult;
  compared_second_price : AuctionResult;
  compared_english : AuctionResult;
  compared_dutch : AuctionResult
}.


End AuctionTheory.

(** ** modules/game_theory.py *)

Module GameTheory.

(** A payoff matrix is a Python list of rows. *)
Definition PayoffMatrix := list (list Q).

(** [m[i][j]]; an index out of range raises [IndexError]. *)
Definition cell (m : PayoffMatrix) (i j : nat) : option Q :=
  row <- nth_error m i ;; nth_error row j.

(** [for k in range(n): if m[k][j] > current: is_nash = False; break].
    The result is [true] when some row beats the current payoff. *)
Fixpoint row_deviation (m : PayoffMatrix) (j : nat) (current : Q)
    (ks : list nat) : option bool :=
  match ks with
  | [] => Some false
  | k :: ks' =>
      x <- cell m k j ;;
      if gtb x current then Some true else row_deviation m j current ks'
  end.

(** The same loop over the columns of row [i]. *)
Fixpoint col_deviation (m : PayoffMatrix) (i : nat) (current : Q)
    (ls : list nat) : option bool :=
  match ls with
  | [] => Some false
  | l :: ls' =>
      x <- cell m i l ;;
      if gtb x current then Some true else col_deviation m i current ls'
  end.

(** The body of the double loop: the final value of [is_nash] at [(i, j)]. *)
Definition is_nash (payoff_matrix_p1 payoff_matrix_p2 : PayoffMatrix)
    (n_strategies_p1 n_strategies_p2 i j : nat) : option bool :=
  current_payoff_p1 <- cell payoff_matrix_p1 i j ;;
  dev1 <- row_deviation payoff_matrix_p1 j current_payoff_p1
            (seq 0 n_strategies_p1) ;;
  if dev1 then Some false
  else
    current_payoff_p2 <- cell payoff_matrix_p2 i j ;;
    dev2 <- col_deviation payoff_matrix_p2 i current_payoff_p2
              (seq 0 n_strategies_p2) ;;
    Some (negb dev2).

Fixpoint scan_columns (payoff_matrix_p1 payoff_matrix_p2 : PayoffMatrix)
    (strategies_p1 strategies_p2 : list string) (i : nat) (js : list nat)
    (equilibria : list (string * string)) : option (list (string * string)) :=
  match js with
  | [] => Some equilibria
  | j :: js' =>
      nash <- is_nash payoff_matrix_p1 payoff_matrix_p2
                (length strategies_p1) (length strategies_p2) i j ;;
      if (nash : bool) then
        s1 <- nth_error strategies_p1 i ;;
        s2 <- nth_error strategies_p2 j ;;
        scan_columns payoff_matrix_p1 payoff_matrix_p2 strategies_p1
          strategies_p2 i js' (equilibria ++ [(s1, s2)])
      else
        scan_columns payoff_matrix_p1 payoff_matrix_p2 strategies_p1
          strategies_p2 i js' equilibria
  end.

Fixpoint scan_rows (payoff_matrix_p1 payoff_matrix_p2 : PayoffMatrix)
    (strategies_p1 strategies_p2 : list string) (rows : list nat)
    (equilibria : list (string * string)) : option (list (string * string)) :=
  match rows with
  | [] => Some equilibria
  | i :: rows' =>
      equilibria' <- scan_columns payoff_matrix_p1 payoff_matrix_p2
                       strategies_p1 strategies_p2 i
                       (seq 0 (length strategies_p2)) equilibria ;;
      scan_rows payoff_matrix_p1 payoff_matrix_p2 strategies_p1 strategies_p2
        rows' equilibria'
  end.

Definition find_nash_equilibria (payoff_matrix_p1 payoff_matrix_p2 : PayoffMatrix)
    (strategies_p1 strategies_p2 : list string)
  : option (list (string * string)) :=
  scan_rows payoff_matrix_p1 payoff_matrix_p2 strategies_p1 strategies_p2
    (seq 0 (length strategies_p1)) [].

(** Python's [all(...)] over a generator: it stops at the first [False]. *)
Fixpoint py_all (test : nat -> option bool) (idx : list nat) : option bool :=
  match idx with
  | [] => Some true
  | i :: idx' =>
      b <- test i ;;
      if (b : bool) then py_all test idx' else Some false
  end.

Definition find_dominant_strategy (payoff_matrix : PayoffMatrix)
    (player : string) : option string :=
  if String.eqb player "row" then
    row0 <- nth_error payoff_matrix 0 ;;
    let js := seq 0 (length row0) in
    first <- py_all (fun j => x <- cell payoff_matrix 0 j ;;
                              y <- cell payoff_matrix 1 j ;;
                              Some (gtb x y)) js ;;
    if (first : bool) then Some "Strategy 1 dominates"%string
    else
      second <- py_all (fun j => x <- cell payoff_matrix 1 j ;;
                                 y <- cell payoff_matrix 0 j ;;
                                 Some (gtb x y)) js ;;
      if (second : bool) then Some "Strategy 2 dominates"%string
      else Some "No dominant strategy"%string
  else
    let rows := seq 0 (length payoff_matrix) in
    first <- py_all (fun i => x <- cell payoff_matrix i 0 ;;
                              y <- cell payoff_matrix i 1 ;;
                              Some (gtb x y)) rows ;;
    if (first : bool) then Some "Strategy 1 dominates"%string
    else
      second <- py_all (fun i => x <- cell payoff_matrix i 1 ;;
                                 y <- cell payoff_matrix i 0 ;;
                                 Some (gtb x y)) rows ;;
      if (second : bool) then Some "Strategy 2 dominates"%string
      else Some "No dominant strategy"%string.

Record DilemmaResult := mkDilemma {
  payoff_matrix : PayoffMatrix;
  strategies : list string;
  equilibrium : list (string * string);
  player1_dominant : string;
  player2_dominant : string;
  game_type : string
}.

Definition prisoners_dilemma (payoff_matrix : PayoffMatrix)
  : option DilemmaResult :=
  let strategies := ["Cooperate"%string; "Defect"%string] in
  equilibria <- find_nash_equilibria payoff_matrix payoff_matrix
                  strategies strategies ;;
  player1_dominant <- find_dominant_strategy payoff_matrix "row" ;;
  player2_dominant <- find_dominant_strategy payoff_matrix "column" ;;
  Some (mkDilemma payoff_matrix strategies equilibria player1_dominant
          player2_dominant "Prisoners Dilemma").

(** The local variables of [repeated_game_simulation] that the loop
    updates.  Actions are [0] (cooperate) and [1] (defect). *)
Record Simulation := mkSimulation {
  action_p1 : nat;
  action_p2 : nat;
  history_p1 : list nat;
  history_p2 : list nat;
  payoffs_p1 : list Q;
  payoffs_p2 : list Q
}.

(** One iteration of [for round_num in range(n_rounds)]. *)
Definition play_round (payoff_matrix : PayoffMatrix) (n_rounds : nat)
    (strategy_p1 strategy_p2 : string) (round_num : nat) (s : Simulation)
  : option Simulation :=
  let history_p1 := history_p1 s ++ [action_p1 s] in
  let history_p2 := history_p2 s ++ [action_p2 s] in
  payoff_p1 <- cell payoff_matrix (action_p1 s) (action_p2 s) ;;
  payoff_p2 <- cell payoff_matrix (action_p2 s) (action_p1 s) ;;
  let payoffs_p1 := payoffs_p1 s ++ [payoff_p1] in
  let payoffs_p2 := payoffs_p2 s ++ [payoff_p2] in
  if (round_num <? n_rounds - 1)%nat then
    let action_p1 :=
      if String.eqb strategy_p1 "tit_for_tat" then action_p2 s
      else if String.eqb strategy_p1 "always_cooperate" then 0%nat
      else 1%nat in
    let action_p2 :=
      if String.eqb strategy_p2 "tit_for_tat" then action_p1
      else if String.eqb strategy_p2 "always_cooperate" then 0%nat
      else 1%nat in
    Some (mkSimulation action_p1 action_p2 history_p1 history_p2
            payoffs_p1 payoffs_p2)
  else
    Some (mkSimulation (action_p1 s) (action_p2 s) history_p1 history_p2
            payoffs_p1 payoffs_p2).

Fixpoint play_rounds (payoff_matrix : PayoffMatrix) (n_rounds : nat)
    (strategy_p1 strategy_p2 : string) (rounds : list nat) (s : Simulation)
  : option Simulation :=
  match rounds with
  | [] => Some s
  | round_num :: rounds' =>
      s' <- play_round payoff_matrix n_rounds strategy_p1 strategy_p2
              round_num s ;;
      play_rounds payoff_matrix n_rounds strategy_p1 strategy_p2 rounds' s'
  end.

Record RepeatedGameResult := mkRepeated {
  result_history_p1 : list nat;
  result_history_p2 : list nat;
  result_payoffs_p1 : list Q;
  result_payoffs_p2 : list Q;
  total_payoff_p1 : Q;
  total_payoff_p2 : Q;
  cooperation_rate_p1 : Q;
  cooperation_rate_p2 : Q
}.

(** Python's [sum] of a list of numbers and [list.count(0)]. *)
Definition py_sum (l : list Q) : Q := fold_left Qplus l 0.
Definition count_zero (l : list nat) : nat := count_occ Nat.eq_dec l 0%nat.
Definition of_nat (n : nat) : Q := inject_Z (Z.of_nat n).

(** The parameter [strategies] is not used by the function. *)
Definition repeated_game_simulation (payoff_matrix : PayoffMatrix)
    (strategies : list string) (n_rounds : nat)
    (strategy_p1 strategy_p2 : string) : option RepeatedGameResult :=
  let action_p1 :=
    if String.eqb strategy_p1 "tit_for_tat" then 0%nat else 1%nat in
  let action_p2 :=
    if String.eqb strategy_p2 "always_cooperate" then 0%nat else 1%nat in
  s <- play_rounds payoff_matrix n_rounds strategy_p1 strategy_p2
         (seq 0 n_rounds) (mkSimulation action_p1 action_p2 [] [] [] []) ;;
  rate1 <- pydiv (of_nat (count_zero (history_p1 s)))
             (of_nat (length (history_p1 s))) ;;
  rate2 <- pydiv (of_nat (count_zero (history_p2 s)))
             (of_nat (length (history_p2 s))) ;;
  Some (mkRepeated (history_p1 s) (history_p2 s) (payoffs_p1 s) (payoffs_p2 s)
          (py_sum (payoffs_p1 s)) (py_sum (payoffs_p2 s)) rate1 rate2).

(** The result dictionary of [entry_game]. *)
Module Entry.
Record Result := mk {
  payoff_matrix_p1 : PayoffMatrix;
  payoff_matrix_p2 : PayoffMatrix;
  strategies : list string;
  equilibrium : list (string * string);
  entry_cost : Q;
  monopoly_profit : Q;
  duopoly_profit : Q;
  game_type : string
}.
End Entry.

Definition entry_game (entry_cost monopoly_profit duopoly_profit : Q)
  : option Entry.Result :=
  let payoff_matrix_p1 :=
    [[duopoly_profit - entry_cost; monopoly_profit - entry_cost];
     [0; 0]] in
  let payoff_matrix_p2 :=
    [[duopoly_profit - entry_cost; 0];
     [monopoly_profit - entry_cost; 0]] in
  let strategies := ["Enter"; "Stay Out"]%string in
  equilibria <- find_nash_equilibria payoff_matrix_p1 payoff_matrix_p2
                  strategies strategies ;;
  Some (Entry.mk payoff_matrix_p1 payoff_matrix_p2 strategies equilibria
          entry_cost monopoly_profit duopoly_profit "Entry Game").

(** The result dictionary of [pricing_game]. *)
Module Pricing.
Record Result := mk {
  payoff_matrix : PayoffMatrix;
  strategies : list string;
  equilibrium : list (string * string);
  game_type : string
}.
End Pricing.

Definition pricing_game (payoff_matrix : PayoffMatrix)
  : option Pricing.Result :=
  let strategies := ["High Price"; "Low Price"]%string in
  equilibria <- find_nash_equilibria payoff_matrix payoff_matrix
                  strategies strategies ;;
  Some (Pricing.mk payoff_matrix strategies equilibria "Pricing Game").

(** The result dictionary of [investment_game]. *)
Module Investment.
Record Result := mk {
  invest_expected_payoff : Q;
  no_invest_payoff : Q;
  optimal_strategy : string;
  investment_cost : Q;
  high_demand_prob : Q;
  game_type : string
}.
End Investment.

Definition investment_game (investment_cost high_demand_prob
    high_demand_profit low_demand_profit no_invest_profit : Q)
  : Investment.Result :=
  let invest_payoff :=
    high_demand_prob * high_demand_profit +
    (1 - high_demand_prob) * low_demand_profit - investment_cost in
  let no_invest_payoff := no_invest_profit in
  let optimal_strategy :=
    if gtb invest_payoff no_invest_payoff then "Invest"%string
    else "No Investment"%string in
  Investment.mk invest_payoff no_invest_payoff optimal_strategy
    investment_cost high_demand_prob "Investment Game".

End GameTheory.

(** ** modules/network_effects.py *)

Module NetworkEffects.

(** The [for t in range(time_periods)] loop with its [break].  The result
    is the list of rates appended to [adoption_history] from this period
    on and the final value of [current_adopters]. *)
Fixpoint adoption_loop (periods : nat)
    (adoption_threshold network_value population_size current_adopters : Q)
  : option (list Q * Q) :=
  match periods with
  | O => Some ([], current_adopters)
  | S periods' =>
      adoption_rate <- pydiv current_adopters population_size ;;
      let network_utility := network_value * adoption_rate in
      let new_adopters :=
        if gtb network_utility adoption_threshold then
          let growth_rate := (1 # 10) * (network_utility - adoption_threshold) in
          pymin (population_size - current_adopters)
                (growth_rate * (population_size - current_adopters))
        else
          let growth_rate := 2 # 100 in
          growth_rate * (population_size - current_adopters) in
      let current_adopters := current_adopters + new_adopters in
      if geb current_adopters (population_size * (99 # 100)) then
        Some ([adoption_rate], current_adopters)
      else
        rest <- adoption_loop periods' adoption_threshold network_value
                  population_size current_adopters ;;
        Some (adoption_rate :: fst rest, snd rest)
  end.

(** [for i, rate in enumerate(adoption_history): if rate >= 0.5: ...; break],
    started at index [i] with [critical_mass_time] initialised to [default]. *)
Fixpoint first_critical (i : nat) (adoption_history : list Q) (default : nat)
  : nat :=
  match adoption_history with
  | [] => default
  | rate :: rest =>
      if geb rate (1 # 2) then i else first_critical (S i) rest default
  end.

Record AdoptionResult := mkAdoption {
  adoption_history : list Q;
  time_periods : list nat;
  final_adoption : Q;
  critical_mass_time : nat;
  population_size : Q;
  model_type : string
}.

Definition network_adoption_dynamics
    (adoption_threshold network_value population_size : Q)
    (time_periods : nat) : option AdoptionResult :=
  let current_adopters := population_size * (1 # 100) in
  run <- adoption_loop time_periods adoption_threshold network_value
           population_size current_adopters ;;
  let adoption_history := fst run in
  let current_adopters := snd run in
  final_adoption <- pydiv current_adopters population_size ;;
  let critical_mass_time := first_critical 0 adoption_history time_periods in
  Some (mkAdoption adoption_history (seq 0 (length adoption_history))
          final_adoption critical_mass_time population_size
          "Network Adoption").

(** The result dictionary of [platform_competition]. *)
Module Platform.
Record Result := mk {
  market_share1 : Q;
  market_share2 : Q;
  users1 : Q;
  users2 : Q;
  network_value1 : Q;
  network_value2 : Q;
  utility1 : Q;
  utility2 : Q;
  total_users : Q;
  model_type : string
}.
End Platform.

Definition platform_competition
    (network_strength platform1_quality platform2_quality total_users : Q)
  : option Platform.Result :=
  market_share1 <-
    (if gtb network_strength 0 then
       pydiv (network_strength * total_users + platform2_quality
              - platform1_quality)
             (2 * network_strength * total_users)
     else if gtb platform1_quality platform2_quality then Some 1
     else if gtb platform2_quality platform1_quality then Some 0
     else Some (1 # 2)) ;;
  let market_share1 := pymax 0 (pymin 1 market_share1) in
  let market_share2 := 1 - market_share1 in
  let users1 := market_share1 * total_users in
  let users2 := market_share2 * total_users in
  let network_value1 := network_strength * users1 in
  let network_value2 := network_strength * users2 in
  let utility1 := platform1_quality + network_value1 in
  let utility2 := platform2_quality + network_value2 in
  Some (Platform.mk market_share1 market_share2 users1 users2
          network_value1 network_value2 utility1 utility2 total_users
          "Platform Competition").

(** The result dictionary of [two_sided_market]. *)
Module TwoSided.
Record Result := mk {
  users_a : Q;
  users_b : Q;
  price_a : Q;
  price_b : Q;
  revenue : Q;
  profit : Q;
  network_value_a : Q;
  network_value_b : Q;
  cross_network_effect : Q;
  model_type : string
}.
End TwoSided.

Definition two_sided_market
    (cross_network_effect platform_cost max_users_per_side : Q)
  : option TwoSided.Result :=
  let base_value := 1 in
  let prices :=
    if gtb cross_network_effect (1 # 2) then (1 # 10, 8 # 10)
    else (4 # 10, 4 # 10) in
  let price_a := fst prices in
  let price_b := snd prices in
  let denominator := 1 - cross_network_effect ^ 2 in
  users <-
    (if gtb denominator 0 then
       users_a <- pydiv (max_users_per_side *
                         (base_value - price_a
                          + cross_network_effect * (base_value - price_b)))
                        denominator ;;
       users_b <- pydiv (max_users_per_side *
                         (base_value - price_b
                          + cross_network_effect * (base_value - price_a)))
                        denominator ;;
       Some (users_a, users_b)
     else Some (max_users_per_side / 2, max_users_per_side / 2)) ;;
  let users_a := pymax 0 (pymin max_users_per_side (fst users)) in
  let users_b := pymax 0 (pymin max_users_per_side (snd users)) in
  let revenue := price_a * users_a + price_b * users_b in
  let profit := revenue - platform_cost in
  let network_value_a := cross_network_effect * users_b in
  let network_value_b := cross_network_effect * users_a in
  Some (TwoSided.mk users_a users_b price_a price_b revenue profit
          network_value_a network_value_b cross_network_effect
          "Two-Sided Market").

(** The result dictionary of [network_externality_welfare]. *)
Module Welfare.
Record Result := mk {
  current_adoption : Q;
  optimal_adoption : Q;
  network_value_per_user : Q;
  total_network_value : Q;
  deadweight_loss : Q;
  welfare_gain_from_coordination : Q
}.
End Welfare.

Definition network_externality_welfare
    (network_strength adoption_rate population_size : Q) : Welfare.Result :=
  let active_users := adoption_rate * population_size in
  let individual_network_benefit := network_strength * active_users in
  let total_network_value := active_users * individual_network_benefit in
  let optimal_adoption := pymin 1 (adoption_rate * (1 + network_strength)) in
  let optimal_users := optimal_adoption * population_size in
  let deadweight_loss :=
    (1 # 2) * network_strength * (optimal_users - active_users) ^ 2 in
  Welfare.mk adoption_rate optimal_adoption individual_network_benefit
    total_network_value deadweight_loss deadweight_loss.

(** The result dictionary of [platform_pricing_strategy]. *)
Module PricingStrategy.
Record Result := mk {
  optimal_price : Q;
  strategy : string;
  expected_market_share : Q;
  expected_users : Q;
  expected_profit : Q;
  network_strength : Q
}.
End PricingStrategy.

Definition platform_pricing_strategy
    (network_strength marginal_cost competition_intensity : Q)
  : option PricingStrategy.Result :=
  choice <-
    (if gtb network_strength 1 then
       Some (marginal_cost * (8 # 10), "Penetration Pricing"%string)
     else if gtb network_strength (1 # 2) then
       ratio <- pydiv (2 # 10) competition_intensity ;;
       Some (marginal_cost * (1 + ratio), "Competitive Pricing"%string)
     else Some (marginal_cost * 2, "Profit Maximization"%string)) ;;
  let optimal_price := fst choice in
  let strategy := snd choice in
  let expected_market_share :=
    if String.eqb strategy "Penetration Pricing" then 7 # 10
    else if String.eqb strategy "Competitive Pricing" then 5 # 10
    else 3 # 10 in
  let users := expected_market_share * 1000 in
  let revenue := optimal_price * users in
  let costs := marginal_cost * users in
  let profit := revenue - costs in
  Some (PricingStrategy.mk optimal_price strategy expected_market_share
          users profit network_strength).

(** One dictionary of the list [analyze_network_tipping] returns. *)
Module Tipping.
Record Entry := mk {
  network_strength : Q;
  market_share1 : Q;
  market_share2 : Q;
  winner : string
}.
End Tipping.

(** [platform_competition] is called with its default [total_users]. *)
Fixpoint analyze_network_tipping (network_strength_range : list Q)
    (platform1_quality platform2_quality : Q) : option (list Tipping.Entry) :=
  match network_strength_range with
  | [] => Some []
  | network_strength :: rest =>
      result <- platform_competition network_strength platform1_quality
                  platform2_quality 1000 ;;
      let entry :=
        Tipping.mk network_strength (Platform.market_share1 result)
          (Platform.market_share2 result)
          (if gtb (Platform.market_share1 result) (1 # 2)
           then "Platform 1"%string else "Platform 2"%string) in
      tipping_results <- analyze_network_tipping rest platform1_quality
                           platform2_quality ;;
      Some (entry :: tipping_results)
  end.

End NetworkEffects.

(** ** Iteration bounds

    The number of price steps after which a bidder valuing the item at [v]
    has left an ascending auction that starts at [reserve_price], and the
    fuel that is enough for the whole loop of [english_auction]. *)



(** ** Reference data and closed forms *)

(** The payoff matrix [[3, 0], [5, 1]]: rows and columns are Cooperate,
    Defect, entries are the row player's payoffs. *)
Definition standard_dilemma : GameTheory.PayoffMatrix := [[3; 0]; [5; 1]].

(** The column player's payoffs in the same symmetric game: the transpose. *)
Definition standard_dilemma_p2 : GameTheory.PayoffMatrix := [[3; 5]; [0; 1]].



(** The actions that the loop of [repeated_game_simulation] plays, as a
    recurrence: the pair of first-round actions, and the pair for the next
    round computed from the pair just played. *)
Definition first_actions (strategy_p1 strategy_p2 : string) : nat * nat :=
  (if String.eqb strategy_p1 "tit_for_tat" then 0%nat else 1%nat,
   if String.eqb strategy_p2 "always_cooperate" then 0%nat else 1%nat).

Definition next_actions (strategy_p1 strategy_p2 : string) (played : nat * nat)
  : nat * nat :=
  let action_p1 :=
    if String.eqb strategy_p1 "tit_for_tat" then snd played
    else if String.eqb strategy_p1 "always_cooperate" then 0%nat
    else 1%nat in
  let action_p2 :=
    if String.eqb strategy_p2 "tit_for_tat" then action_p1
    else if String.eqb strategy_p2 "always_cooperate" then 0%nat
    else 1%nat in
  (action_p1, action_p2).

Fixpoint actions_at (strategy_p1 strategy_p2 : string) (round_num : nat)
  : nat * nat :=
  match round_num with
  | O => first_actions strategy_p1 strategy_p2
  | S previous =>
      next_actions strategy_p1 strategy_p2
        (actions_at strategy_p1 strategy_p2 previous)
  end.

(** A payoff matrix with an entry for each of the four action pairs. *)
Definition two_by_two (m : GameTheory.PayoffMatrix) : Prop :=
  forall a b, (a < 2)%nat -> (b < 2)%nat -> GameTheory.cell m a b <> None.

(** [m[i][j]] of an entry that exists. *)
Definition payoff (m : GameTheory.PayoffMatrix) (i j : nat) : Q :=
  nth j (nth i m []) 0.

(** The matrix has an entry for each of [rows] row strategies and [cols]
    column strategies. *)
Definition covers (m : GameTheory.PayoffMatrix) (rows cols : nat) : Prop :=
  (rows <= length m)%nat
  /\ forall i, (i < rows)%nat -> (cols <= length (nth i m []))%nat.

(** No row pays the row player more than row [i] does in column [j]. *)
Definition no_better_row (m : GameTheory.PayoffMatrix) (rows i j : nat)
  : Prop :=
  forall k, (k < rows)%nat -> payoff m k j <= payoff m i j.

(** No column pays the column player more than column [j] does in row [i]. *)
Definition no_better_column (m : GameTheory.PayoffMatrix) (cols i j : nat)
  : Prop :=
  forall l, (l < cols)%nat -> payoff m i l <= payoff m i j.

(** The pair of strategies at [(i, j)] gives neither player a better
    deviation. *)
Definition stable (payoff_matrix_p1 payoff_matrix_p2 : GameTheory.PayoffMatrix)
    (strategies_p1 strategies_p2 : list string) (i j : nat) : Prop :=
  no_better_row payoff_matrix_p1 (length strategies_p1) i j
  /\ no_better_column payoff_matrix_p2 (length strategies_p2) i j.

(** ** The same code on machine numbers

    Python's [float] is IEEE 754 binary64, and a numpy array built from
    Python integers holds [int64].  For the runs in which rounding,
    underflow or wrap-around decides the outcome, the functions concerned
    are repeated here, operation for operation, on Rocq's primitive
    binary64 floats and on 64-bit two's-complement integers. *)

Module Binary64.

(** Python's [x / y] on floats: [ZeroDivisionError] when [y == 0.0]. *)
Definition pydiv (x y : float) : option float :=
  if PrimFloat.eqb y 0 then None else Some (x / y)%float.

(** Python's [x ** 2] on a float: the rounded square, and [OverflowError]
    when a finite [x] has an infinite square. *)
Definition pysquare (x : float) : option float :=
  let y := (x * x)%float in
  if is_infinity y && negb (is_infinity x) then None else Some y.

(** Python's [x >= y] on floats. *)
Definition geb (x y : float) : bool := PrimFloat.leb y x.

Record EquilibriumResult := mkEquilibrium {
  price : float;
  quantity : float;
  consumer_surplus : float;
  producer_surplus : float;
  total_surplus : float;
  deadweight_loss : option float;
  market_type : string
}.

(** [modules/market_structures.py], [monopoly]. *)
Definition monopoly (a b mc : float) : option EquilibriumResult :=
  q_eq <- pydiv (a - mc) (2 * b) ;;
  let p_eq := (a - b * q_eq)%float in
  let consumer_surplus := (0.5 * q_eq * (a - p_eq))%float in
  let producer_surplus := ((p_eq - mc) * q_eq)%float in
  q_competitive <- pydiv (a - mc) b ;;
  gap_squared <- pysquare (q_competitive - q_eq) ;;
  let deadweight_loss := (0.5 * b * gap_squared)%float in
  Some (mkEquilibrium p_eq q_eq consumer_surplus producer_surplus
          (consumer_surplus + producer_surplus)
          (Some deadweight_loss) "Monopoly").

Record AuctionResult := mkAuction {
  winner : option nat;
  winning_bid : float;
  payment : option float;
  revenue : float;
  winner_surplus : float;
  efficiency : float;
  bids : option (list float);
  final_price : option float;
  valuations : option (list float);
  auction_type : string
}.

Definition where_ge (arr : list float) (x : float) : list nat :=
  filter (fun i => geb (nth i arr 0%float) x) (seq 0 (length arr)).

Definition select_ge (arr : list float) (x : float) : list float :=
  filter (fun v => geb v x) arr.

Fixpoint insert_sorted (x : float) (l : list float) : list float :=
  match l with
  | [] => [x]
  | y :: t => if PrimFloat.leb x y then x :: l else y :: insert_sorted x t
  end.

Fixpoint np_sort (l : list float) : list float :=
  match l with
  | [] => []
  | x :: t => insert_sorted x (np_sort t)
  end.

Definition second_last (arr : list float) : float :=
  nth (length arr - 2) arr 0%float.

(** [modules/auction_theory.py], the [while] loop of [english_auction];
    [fuel] counts the iterations allowed. *)
Fixpoint english_loop (fuel : nat) (valuations : list float)
    (increment : float) (active_bidders : list nat) (current_price : float)
  : option (list nat * float) :=
  if (1 <? length active_bidders)%nat then
    match fuel with
    | O => None
    | S fuel' =>
        english_loop fuel' valuations increment
          (filter (fun i => geb (nth i valuations 0%float)
                                (current_price + increment))
                  active_bidders)
          (current_price + increment)%float
    end
  else Some (active_bidders, current_price).

Definition english_auction (fuel : nat) (valuations : list float)
    (reserve_price increment : float) : option AuctionResult :=
  let active_bidders := where_ge valuations reserve_price in
  if (length active_bidders =? 0)%nat then
    Some (mkAuction None 0 None 0 0 0 None (Some reserve_price) None
            "English Auction")
  else
    st <- english_loop fuel valuations increment active_bidders reserve_price ;;
    let '(active_bidders, current_price) := st in
    if (length active_bidders =? 0)%nat then
      Some (mkAuction None 0 None 0 0 0 None (Some current_price) None
              "English Auction")
    else
      let winner_idx := nth 0 active_bidders 0%nat in
      let sorted_valuations := np_sort (select_ge valuations reserve_price) in
      let payment :=
        if (1 <? length sorted_valuations)%nat
        then (second_last sorted_valuations + increment)%float
        else reserve_price in
      let winner_surplus := (nth winner_idx valuations 0 - payment)%float in
      let efficiency := 1%float in
      Some (mkAuction (Some winner_idx) (nth winner_idx valuations 0%float)
              (Some payment) payment winner_surplus efficiency None
              (Some payment) (Some valuations) "English Auction").

End Binary64.

Module Int64.

(** The value an [int64] operation stores: the result modulo [2 ^ 64],
    read as a two's-complement number. *)
Definition wrap (z : Z) : Z := ((z + 2 ^ 63) mod 2 ^ 64 - 2 ^ 63)%Z.

Record AuctionResult := mkAuction {
  winner : option nat;
  winning_bid : Z;
  payment : option Z;
  revenue : Z;
  winner_surplus : Z;
  efficiency : Q;
  bids : option (list Z);
  valuations : option (list Z);
  auction_type : string
}.

Definition where_ge (arr : list Z) (x : Z) : list nat :=
  filter (fun i => (x <=? nth i arr 0)%Z) (seq 0 (length arr)).

Definition take (arr : list Z) (idx : list nat) : list Z :=
  map (fun i => nth i arr 0%Z) idx.

Fixpoint argmax_from (best_i : nat) (best : Z) (i : nat) (l : list Z) : nat :=
  match l with
  | [] => best_i
  | x :: t =>
      if (best <? x)%Z then argmax_from i x (S i) t
      else argmax_from best_i best (S i) t
  end.

Definition argmax (l : list Z) : nat :=
  match l with
  | [] => 0%nat
  | x :: t => argmax_from 0 x 1 t
  end.

Fixpoint insert_sorted (x : Z) (l : list Z) : list Z :=
  match l with
  | [] => [x]
  | y :: t => if (x <=? y)%Z then x :: l else y :: insert_sorted x t
  end.

Fixpoint np_sort (l : list Z) : list Z :=
  match l with
  | [] => []
  | x :: t => insert_sorted x (np_sort t)
  end.

Definition partition_second_last (arr : list Z) : Z :=
  nth (length arr - 2) (np_sort arr) 0%Z.

(** Python's [max(x, y)]. *)
Definition pymax (x y : Z) : Z := if (x <? y)%Z then y else x.

(** [modules/auction_theory.py], [second_price_sealed_bid] on an [int64]
    array of valuations and an integer reserve price: the comparisons are
    exact, the subtraction in [winner_surplus] is an [int64] operation. *)
Definition second_price_sealed_bid (valuations : list Z) (reserve_price : Z)
  : AuctionResult :=
  let bids := valuations in
  let feasible_bidders := where_ge bids reserve_price in
  if (length feasible_bidders =? 0)%nat then
    mkAuction None 0 None 0 0 0 (Some bids) None "Second-Price Sealed-Bid"
  else
    let feasible_bids := take bids feasible_bidders in
    let winner_idx := nth (argmax feasible_bids) feasible_bidders 0%nat in
    let payment :=
      if (1 <? length feasible_bids)%nat
      then partition_second_last feasible_bids
      else reserve_price in
    let payment := pymax payment reserve_price in
    let winner_surplus := wrap (nth winner_idx valuations 0 - payment)%Z in
    let efficiency := 1 in
    mkAuction (Some winner_idx) (nth winner_idx valuations 0%Z) (Some payment)
      payment winner_surplus efficiency (Some bids) (Some valuations)
      "Second-Price Sealed-Bid".

End Int64.

(** ** Ranges in which the machine numbers are exact *)



(** An integer of magnitude at most [2 ^ 20]: sums and products of a few of
    them are exact as well. *)
Definition small_integer (x : Q) : Prop :=
  exists z : Z, x == inject_Z z /\ (Z.abs z <= 2 ^ 20)%Z.

(** [x] lies in [[-bound, bound]]. *)
Definition within (bound x : Q) : Prop := - bound <= x /\ x <= bound.

(** The price of the Dutch auction after [k] refusals, by the loop's own
    repeated subtraction. *)
Fixpoint falling_price (k : nat) (starting_price decrement : Q) : Q :=
  match k with
  | O => starting_price
  | S k' => falling_price k' (starting_price - decrement) decrement
  end.

(** ** The repeated game for any integer [n_rounds] *)

(** [repeated_game_simulation] with [n_rounds] an arbitrary Python
    integer: [range(n_rounds)] is empty when [n_rounds <= 0], and the
    last-round test [round_num < n_rounds - 1] is a comparison of
    integers. *)
Module AnyRounds.

Definition play_round (payoff_matrix : GameTheory.PayoffMatrix) (n_rounds : Z)
    (strategy_p1 strategy_p2 : string) (round_num : nat)
    (s : GameTheory.Simulation) : option GameTheory.Simulation :=
  let history_p1 := GameTheory.history_p1 s ++ [GameTheory.action_p1 s] in
  let history_p2 := GameTheory.history_p2 s ++ [GameTheory.action_p2 s] in
  payoff_p1 <- GameTheory.cell payoff_matrix (GameTheory.action_p1 s)
                 (GameTheory.action_p2 s) ;;
  payoff_p2 <- GameTheory.cell payoff_matrix (GameTheory.action_p2 s)
                 (GameTheory.action_p1 s) ;;
  let payoffs_p1 := GameTheory.payoffs_p1 s ++ [payoff_p1] in
  let payoffs_p2 := GameTheory.payoffs_p2 s ++ [payoff_p2] in
  if (Z.of_nat round_num <? n_rounds - 1)%Z then
    let action_p1 :=
      if String.eqb strategy_p1 "tit_for_tat" then GameTheory.action_p2 s
      else if String.eqb strategy_p1 "always_cooperate" then 0%nat
      else 1%nat in
    let action_p2 :=
      if String.eqb strategy_p2 "tit_for_tat" then action_p1
      else if String.eqb strategy_p2 "always_cooperate" then 0%nat
      else 1%nat in
    Some (GameTheory.mkSimulation action_p1 action_p2 history_p1 history_p2
            payoffs_p1 payoffs_p2)
  else
    Some (GameTheory.mkSimulation (GameTheory.action_p1 s)
            (GameTheory.action_p2 s) history_p1 history_p2
            payoffs_p1 payoffs_p2).

Fixpoint play_rounds (payoff_matrix : GameTheory.PayoffMatrix) (n_rounds : Z)
    (strategy_p1 strategy_p2 : string) (rounds : list nat)
    (s : GameTheory.Simulation) : option GameTheory.Simulation :=
  match rounds with
  | [] => Some s
  | round_num :: rounds' =>
      s' <- play_round payoff_matrix n_rounds strategy_p1 strategy_p2
              round_num s ;;
      play_rounds payoff_matrix n_rounds strategy_p1 strategy_p2 rounds' s'
  end.

Definition repeated_game_simulation (payoff_matrix : GameTheory.PayoffMatrix)
    (strategies : list string) (n_rounds : Z)
    (strategy_p1 strategy_p2 : string)
  : option GameTheory.RepeatedGameResult :=
  let action_p1 :=
    if String.eqb strategy_p1 "tit_for_tat" then 0%nat else 1%nat in
  let action_p2 :=
    if String.eqb strategy_p2 "always_cooperate" then 0%nat else 1%nat in
  s <- play_rounds payoff_matrix n_rounds strategy_p1 strategy_p2
         (seq 0 (Z.to_nat n_rounds))
         (GameTheory.mkSimulation action_p1 action_p2 [] [] [] []) ;;
  rate1 <- pydiv (GameTheory.of_nat
                    (GameTheory.count_zero (GameTheory.history_p1 s)))
             (GameTheory.of_nat (length (GameTheory.history_p1 s))) ;;
  rate2 <- pydiv (GameTheory.of_nat
                    (GameTheory.count_zero (GameTheory.history_p2 s)))
             (GameTheory.of_nat (length (GameTheory.history_p2 s))) ;;
  Some (GameTheory.mkRepeated (GameTheory.history_p1 s)
          (GameTheory.history_p2 s) (GameTheory.payoffs_p1 s)
          (GameTheory.payoffs_p2 s)
          (GameTheory.py_sum (GameTheory.payoffs_p1 s))
          (GameTheory.py_sum (GameTheory.payoffs_p2 s)) rate1 rate2).

End AnyRounds.

(** * Properties *)

(** ** Comparisons and division *)

Lemma geb_true (x y : Q) : geb x y = true <-> y <= x.
Proof. unfold geb. apply Qle_bool_iff. Qed.

Lemma geb_false (x y : Q) : geb x y = false <-> x < y.
Proof.
  unfold geb. split; intro H.
  - apply Qnot_le_lt. intro Hle. apply Qle_bool_iff in Hle. congruence.
  - destruct (Qle_bool y x) eqn:E; [|reflexivity].
    apply Qle_bool_iff in E. lra.
Qed.

Lemma gtb_true (x y : Q) : gtb x y = true <-> y < x.
Proof. unfold gtb. rewrite negb_true_iff. apply (geb_false y x). Qed.

Lemma gtb_false (x y : Q) : gtb x y = false <-> x <= y.
Proof. unfold gtb. rewrite negb_false_iff. apply Qle_bool_iff. Qed.

Lemma pydiv_some (x y : Q) : ~ y == 0 -> pydiv x y = Some (x / y).
Proof.
  intro H. unfold pydiv. destruct (Qeq_bool y 0) eqn:E; [|reflexivity].
  apply Qeq_bool_iff in E. contradiction.
Qed.

Lemma pydiv_none_iff (x y : Q) : pydiv x y = None <-> y == 0.
Proof.
  unfold pydiv. destruct (Qeq_bool y 0) eqn:E.
  - apply Qeq_bool_iff in E. tauto.
  - split; [discriminate|]. intro H. apply Qeq_bool_iff in H. congruence.
Qed.

Lemma pymax_lub (x y z : Q) : x <= z -> y <= z -> pymax x y <= z.
Proof. intros Hx Hy. unfold pymax. now destruct (gtb y x). Qed.

Lemma pymax_ge_r (x y : Q) : y <= pymax x y.
Proof.
  unfold pymax. destruct (gtb y x) eqn:E; [lra|].
  now apply gtb_false in E.
Qed.

(** ** Market structures *)

Section LinearDemand.

Import MarketStructures.

Variables a b mc : Q.
Hypothesis b_pos : 0 < b.

Lemma perfect_competition_runs :
  perfect_competition a b mc =
  Some (mkEquilibrium mc ((a - mc) / b)
          ((1 # 2) * ((a - mc) / b) * (a - mc)) 0
          ((1 # 2) * ((a - mc) / b) * (a - mc) + 0) None
          "Perfect Competition").
Proof.
  unfold perfect_competition. rewrite pydiv_some by lra. reflexivity.
Qed.

Lemma monopoly_runs :
  exists m, monopoly a b mc = Some m
    /\ quantity m = (a - mc) / (2 * b)
    /\ price m = a - b * ((a - mc) / (2 * b))
    /\ deadweight_loss m =
       Some ((1 # 2) * b * ((a - mc) / b - (a - mc) / (2 * b)) ^ 2).
Proof.
  unfold monopoly. rewrite !pydiv_some by lra. cbn [bind].
  eexists. split; [reflexivity|]. cbn. repeat split.
Qed.

Lemma half_quantity : (a - mc) / (2 * b) == (a - mc) / b / 2.
Proof. field. lra. Qed.

Lemma quantity_gap : (a - mc) / b - (a - mc) / (2 * b) == (a - mc) / (2 * b).
Proof. field. lra. Qed.

Lemma monopoly_quantity_sign : mc < a -> 0 < (a - mc) / (2 * b).
Proof.
  intro H. apply Qlt_shift_div_l; lra.
Qed.





End LinearDemand.

Lemma square_pos (x : Q) : 0 < x -> 0 < x ^ 2.
Proof.
  intro H. change (x ^ 2) with (x * x). now apply Qmult_lt_0_compat.
Qed.

Lemma square_eq (x y : Q) : x == y -> x ^ 2 == y ^ 2.
Proof. intro H. now rewrite H. Qed.

(** Decides a closed comparison between rational constants. *)
Ltac decide_bound :=
  vm_compute; first [reflexivity | discriminate].

(** Between [1 / L] and [L] the deadweight loss stays between
    [1 / (8 L^5)] and [L^5 / 8]. *)
Lemma deadweight_loss_range (a b mc L : Q) :
  0 < L -> 0 < mc -> / L <= b -> b <= L -> / L <= a - mc -> a <= L ->
  (/ L) ^ 5 / 8
  <= (1 # 2) * b * ((a - mc) / b - (a - mc) / (2 * b)) ^ 2
  /\ (1 # 2) * b * ((a - mc) / b - (a - mc) / (2 * b)) ^ 2 <= L ^ 5 / 8.
Proof.
  intros HL Hmc Hb1 Hb2 Hx1 Ha.
  assert (Hi : 0 < / L) by now apply Qinv_lt_0_compat.
  assert (HiL : / L * L == 1) by (field; lra).
  assert (Hx2 : a - mc <= L) by lra.
  assert (Hb : 0 < b) by lra.
  remember (/ L) as i eqn:Ei. remember (a - mc) as x eqn:Ex.
  assert (E1 : i ^ 5 / 8 == (1 # 2) * (i * ((i * i / 2) * (i * i / 2))))
    by field.
  assert (E2 : L ^ 5 / 8 == (1 # 2) * (L * ((L * L / 2) * (L * L / 2))))
    by field.
  assert (E3 : (1 # 2) * b * (x / b - x / (2 * b)) ^ 2
               == (1 # 2) * (b * (x / (2 * b) * (x / (2 * b)))))
    by (field; lra).
  rewrite E1, E2, E3. clear E1 E2 E3.
  assert (Hib : i * b <= 1) by nra.
  assert (HLb : 1 <= L * b) by nra.
  assert (Hq1 : i * i / 2 <= x / (2 * b)).
  { apply Qle_shift_div_l; [lra|].
    assert (E : i * i / 2 * (2 * b) == i * (i * b)) by field.
    rewrite E. nra. }
  assert (Hq2 : x / (2 * b) <= L * L / 2).
  { apply Qle_shift_div_r; [lra|].
    assert (E : L * L / 2 * (2 * b) == L * (L * b)) by field.
    rewrite E. nra. }
  assert (Hii : 0 < i * i) by (apply Qmult_lt_0_compat; exact Hi).
  assert (HLL : 0 < L * L) by (apply Qmult_lt_0_compat; exact HL).
  remember (x / (2 * b)) as q eqn:Eq.
  assert (Hc : 0 < i * i / 2) by (apply Qlt_shift_div_l; lra).
  assert (HC : 0 < L * L / 2) by (apply Qlt_shift_div_l; lra).
  remember (i * i / 2) as c eqn:Ec. remember (L * L / 2) as C eqn:EC.
  assert (Hqq1 : c * c <= q * q) by nra.
  assert (Hqq2 : q * q <= C * C) by nra.
  assert (P2 : 0 <= q * q) by nra.
  assert (P3 : 0 <= C * C) by nra.
  split.
  - assert (i * (c * c) <= b * (q * q)); [|lra].
    apply Qle_trans with (i * (q * q)).
    + apply Qmult_le_l; [exact Hi | exact Hqq1].
    + apply Qmult_le_compat_r; [exact Hb1 | exact P2].
  - assert (b * (q * q) <= L * (C * C)); [|lra].
    apply Qle_trans with (b * (C * C)).
    + apply Qmult_le_l; [exact Hb | exact Hqq2].
    + apply Qmult_le_compat_r; [exact Hb2 | exact P3].
Qed.

(** C7, as stated, fails on binary64: at [a = 2^-600], [b = 1] and
    [mc = 2^-601], which satisfy [a > mc > 0] and [b > 0], the square of
    the quantity gap underflows and the deadweight loss [monopoly] reports
    is [0.0], not a positive number. *)
Lemma monopoly_deadweight_loss_counterexample :
  PrimFloat.ltb 0 0x1p-601 = true
  /\ PrimFloat.ltb 0x1p-601 0x1p-600 = true
  /\ PrimFloat.ltb 0 1 = true
  /\ exists m dwl,
       Binary64.monopoly 0x1p-600 1 0x1p-601 = Some m
       /\ Binary64.deadweight_loss m = Some dwl
       /\ PrimFloat.ltb 0 dwl = false.
Proof.
  split; [reflexivity|]. split; [reflexivity|]. split; [reflexivity|].
  eexists. eexists. split; [vm_compute; reflexivity|].
  split; reflexivity.
Qed.

(** C7, amended: for [a > mc > 0] and [b > 0] of moderate magnitude, that
    is [2^-100 <= b <= 2^100], [a - mc >= 2^-100] and [a <= 2^100],
    [monopoly] and [perfect_competition] both return a result, the
    monopoly quantity is half the competitive quantity, and the deadweight
    loss is strictly positive: it lies between [2^-503] and [2^497], far
    inside the range of binary64, so neither underflow nor overflow can
    change its sign. *)
Theorem monopoly_half_of_competitive (a b mc : Q) :
  0 < mc -> mc < a -> 0 < b ->
  / 2 ^ 100 <= b -> b <= 2 ^ 100 -> / 2 ^ 100 <= a - mc -> a <= 2 ^ 100 ->
  exists m c dwl,
    MarketStructures.monopoly a b mc = Some m /\
    MarketStructures.perfect_competition a b mc = Some c /\
    MarketStructures.quantity m == MarketStructures.quantity c / 2 /\
    MarketStructures.deadweight_loss m = Some dwl /\
    0 < dwl /\
    (/ 2 ^ 100) ^ 5 / 8 <= dwl /\ dwl <= (2 ^ 100) ^ 5 / 8.
Proof.
  intros Hmc Ha Hb Hb1 Hb2 Hx Ha2.
  destruct (monopoly_runs a b mc Hb) as (m & Hm & Hq & _ & Hd).
  assert (HL : 0 < 2 ^ 100) by decide_bound.
  destruct (deadweight_loss_range a b mc (2 ^ 100) HL Hmc Hb1 Hb2 Hx Ha2)
    as [Hlo Hhi].
  assert (Hpos : 0 < (/ 2 ^ 100) ^ 5 / 8) by decide_bound.
  exists m. eexists. eexists.
  split; [exact Hm|].
  split; [apply perfect_competition_runs; exact Hb|].
  split; [rewrite Hq; cbn; apply half_quantity; exact Hb|].
  split; [exact Hd|].
  split; [eapply Qlt_le_trans; [exact Hpos | exact Hlo]|].
  split; [exact Hlo | exact Hhi].
Qed.

Lemma monopoly_half_of_competitive_witness :
  exists m c dwl,
    MarketStructures.monopoly 100 2 10 = Some m /\
    MarketStructures.perfect_competition 100 2 10 = Some c /\
    MarketStructures.quantity m == MarketStructures.quantity c / 2 /\
    MarketStructures.deadweight_loss m = Some dwl /\
    0 < dwl /\
    (/ 2 ^ 100) ^ 5 / 8 <= dwl /\ dwl <= (2 ^ 100) ^ 5 / 8.
Proof.
  apply (monopoly_half_of_competitive 100 2 10); decide_bound.
Defined.




(** ** Price competition *)

Section Bertrand.

Import PriceCompetition.

Variables mc1 mc2 a b gamma : Q.

(** The function fails exactly when its one divisor is zero. *)
Lemma bertrand_fails_iff :
  bertrand_competition mc1 mc2 a b gamma = None <->
  b * (4 - gamma ^ 2) == 0.
Proof.
  unfold bertrand_competition.
  destruct (Qeq_dec (b * (4 - gamma ^ 2)) 0) as [E | E].
  - rewrite (proj2 (pydiv_none_iff _ _) E). cbn. tauto.
  - rewrite !pydiv_some by exact E. cbn. split; [discriminate | tauto].
Qed.

Lemma bertrand_denominator_in_range :
  0 <= gamma -> gamma <= 1 -> 3 <= 4 - gamma ^ 2.
Proof.
  intros H0 H1. change (gamma ^ 2) with (gamma * gamma). nra.
Qed.

Lemma bertrand_divisor_zero_iff :
  0 < b -> (b * (4 - gamma ^ 2) == 0 <-> gamma ^ 2 == 4).
Proof.
  intro Hb. change (gamma ^ 2) with (gamma * gamma). split; intro H.
  - destruct (Qeq_dec (gamma * gamma) 4) as [E | E]; [exact E|].
    exfalso. apply E.
    assert (Hz : 4 - gamma * gamma == b * (4 - gamma * gamma) / b)
      by (field; lra).
    rewrite H in Hz. assert (Hz' : 4 - gamma * gamma == 0).
    { rewrite Hz. field. lra. }
    lra.
  - rewrite H. ring.
Qed.

End Bertrand.

(** C5, as stated, fails: [gamma = 3] lies outside [[0, 1]] and the
    function computes a result for it. *)
Lemma bertrand_gamma_counterexample :
  ~ (forall mc1 mc2 a b gamma,
        ~ (0 <= gamma /\ gamma <= 1) ->
        PriceCompetition.bertrand_competition mc1 mc2 a b gamma = None).
Proof.
  intro H.
  assert (Hout : ~ (0 <= 3 /\ 3 <= 1)) by (intros [_ Hle]; now apply Hle).
  specialize (H 10 10 100 1 3 Hout).
  vm_compute in H. discriminate.
Qed.

(** Interval arithmetic on [within]. *)
Lemma within_plus (A B x y : Q) :
  within A x -> within B y -> within (A + B) (x + y).
Proof. intros [? ?] [? ?]. split; lra. Qed.

Lemma within_minus (A B x y : Q) :
  within A x -> within B y -> within (A + B) (x - y).
Proof. intros [? ?] [? ?]. split; lra. Qed.

Lemma within_mult (A B x y : Q) :
  within A x -> within B y -> within (A * B) (x * y).
Proof.
  intros [Hx1 Hx2] [Hy1 Hy2].
  assert (P1 : 0 <= (A - x) * (B - y)) by (apply Qmult_le_0_compat; lra).
  assert (P2 : 0 <= (A + x) * (B + y)) by (apply Qmult_le_0_compat; lra).
  assert (P3 : 0 <= (A - x) * (B + y)) by (apply Qmult_le_0_compat; lra).
  assert (P4 : 0 <= (A + x) * (B - y)) by (apply Qmult_le_0_compat; lra).
  split; lra.
Qed.

Lemma within_div (A c n d : Q) :
  within A n -> 0 < c -> c <= d -> within (A / c) (n / d).
Proof.
  intros [H1 H2] Hc Hd.
  assert (Hd0 : 0 < d) by lra.
  assert (HA : 0 <= A) by lra.
  assert (Hi : / d <= / c).
  { apply Qle_shift_inv_l; [exact Hc|].
    assert (E : / d * c == c / d) by (field; lra). rewrite E.
    apply Qle_shift_div_r; lra. }
  assert (Hid : 0 < / d) by (apply Qinv_lt_0_compat; exact Hd0).
  unfold Qdiv.
  assert (U : A * / d <= A * / c) by nra.
  split.
  - assert (- (A * / d) <= n * / d) by nra. lra.
  - assert (n * / d <= A * / d) by nra. lra.
Qed.

Lemma within_le (A B x : Q) : within A x -> A <= B -> within B x.
Proof. intros [? ?] ?. split; lra. Qed.

(** For [gamma] in [[0, 1]] and inputs of magnitude at most [2 ^ 30], with
    [b >= 2 ^ -30], both quantities have magnitude at most [2 ^ 124]. *)
Lemma bertrand_quantities_bounded (mc1 mc2 a b gamma : Q) :
  within (2 ^ 30) mc1 -> within (2 ^ 30) mc2 -> within (2 ^ 30) a ->
  / 2 ^ 30 <= b -> b <= 2 ^ 30 -> 0 <= gamma -> gamma <= 1 ->
  exists r,
    PriceCompetition.bertrand_competition mc1 mc2 a b gamma = Some r
    /\ within (2 ^ 124) (PriceCompetition.quantity1 r)
    /\ within (2 ^ 124) (PriceCompetition.quantity2 r).
Proof.
  intros Wm1 Wm2 Wa Hb1 Hb2 H0 H1.
  assert (Hb : 0 < b).
  { eapply Qlt_le_trans; [| exact Hb1]. decide_bound. }
  pose proof (bertrand_denominator_in_range gamma H0 H1) as H3.
  remember (2 ^ 30) as L eqn:EL.
  assert (HL : 0 < / L) by (subst L; decide_bound).
  assert (Wb : within L b) by (split; lra).
  assert (Wg : within 1 gamma) by (split; lra).
  assert (W2 : within 2 2) by (split; lra).
  assert (Hc : / L * 3 <= b * (4 - gamma ^ 2)).
  { apply Qle_trans with (b * 3).
    - apply Qmult_le_compat_r; [exact Hb1 | discriminate].
    - apply Qmult_le_l; [exact Hb | exact H3]. }
  assert (Hc0 : 0 < / L * 3) by lra.
  assert (Hdiv : ~ b * (4 - gamma ^ 2) == 0) by lra.
  pose proof (within_plus _ _ _ _
                (within_plus _ _ _ _
                   (within_mult _ _ _ _ W2 Wa)
                   (within_mult _ _ _ _ (within_mult _ _ _ _ W2 Wb) Wm1))
                (within_mult _ _ _ _ (within_mult _ _ _ _ Wg Wb) Wm2))
    as WN1.
  pose proof (within_plus _ _ _ _
                (within_plus _ _ _ _
                   (within_mult _ _ _ _ W2 Wa)
                   (within_mult _ _ _ _ (within_mult _ _ _ _ W2 Wb) Wm2))
                (within_mult _ _ _ _ (within_mult _ _ _ _ Wg Wb) Wm1))
    as WN2.
  pose proof (within_div _ _ _ _ WN1 Hc0 Hc) as Wp1.
  pose proof (within_div _ _ _ _ WN2 Hc0 Hc) as Wp2.
  unfold PriceCompetition.bertrand_competition.
  rewrite !(pydiv_some _ _ Hdiv). cbn [bind].
  eexists. split; [reflexivity|].
  cbn [PriceCompetition.quantity1 PriceCompetition.quantity2].
  split.
  - eapply within_le.
    + exact (within_plus _ _ _ _
               (within_minus _ _ _ _ Wa (within_mult _ _ _ _ Wb Wp1))
               (within_mult _ _ _ _ (within_mult _ _ _ _ Wg Wb) Wp2)).
    + subst L. decide_bound.
  - eapply within_le.
    + exact (within_plus _ _ _ _
               (within_minus _ _ _ _ Wa (within_mult _ _ _ _ Wb Wp2))
               (within_mult _ _ _ _ (within_mult _ _ _ _ Wg Wb) Wp1)).
    + subst L. decide_bound.
Qed.

(** C5, amended: [bertrand_competition] has no range check on [gamma].
    For inputs of moderate magnitude, [|mc1|, |mc2|, |a|, |gamma| <= 2^30]
    and [2^-30 <= b <= 2^30], where no operation of the function leaves
    the range of binary64 ([gamma ^ 2] is at most [2^60]), it computes a
    result for every [gamma] with [gamma ^ 2 <> 4], inside or outside
    [[0, 1]]; and for [gamma] in [[0, 1]] the denominator [4 - gamma ^ 2]
    is at least [3], the divisor [b * (4 - gamma ^ 2)] is nonzero, and a
    result is returned whose two quantities have magnitude at most
    [2^124]. *)
Theorem bertrand_gamma_unchecked (mc1 mc2 a b gamma : Q) :
  within (2 ^ 30) mc1 -> within (2 ^ 30) mc2 -> within (2 ^ 30) a ->
  within (2 ^ 30) gamma -> / 2 ^ 30 <= b -> b <= 2 ^ 30 ->
  gamma ^ 2 <= 2 ^ 60
  /\
  (~ gamma ^ 2 == 4 ->
   exists r, PriceCompetition.bertrand_competition mc1 mc2 a b gamma = Some r)
  /\
  (0 <= gamma /\ gamma <= 1 ->
   3 <= 4 - gamma ^ 2 /\
   ~ b * (4 - gamma ^ 2) == 0 /\
   exists r,
     PriceCompetition.bertrand_competition mc1 mc2 a b gamma = Some r
     /\ within (2 ^ 124) (PriceCompetition.quantity1 r)
     /\ within (2 ^ 124) (PriceCompetition.quantity2 r)).
Proof.
  intros Wm1 Wm2 Wa Wg Hb1 Hb2.
  assert (Hb : 0 < b).
  { eapply Qlt_le_trans; [| exact Hb1]. decide_bound. }
  split.
  { pose proof (within_mult _ _ _ _ Wg Wg) as [_ Hsq].
    change (gamma ^ 2) with (gamma * gamma).
    eapply Qle_trans; [exact Hsq | decide_bound]. }
  assert (Hrun : ~ gamma ^ 2 == 4 ->
                 exists r, PriceCompetition.bertrand_competition mc1 mc2 a b
                             gamma = Some r).
  { intro Hg.
    destruct (PriceCompetition.bertrand_competition mc1 mc2 a b gamma) eqn:E.
    - now eexists.
    - apply bertrand_fails_iff in E.
      apply (bertrand_divisor_zero_iff b gamma Hb) in E. contradiction. }
  split; [exact Hrun|].
  intros [H0 H1].
  pose proof (bertrand_denominator_in_range gamma H0 H1) as H3.
  assert (Hg : ~ gamma ^ 2 == 4) by lra.
  split; [exact H3|].
  split; [rewrite (bertrand_divisor_zero_iff b gamma Hb); exact Hg|].
  now apply bertrand_quantities_bounded.
Qed.

Lemma bertrand_gamma_unchecked_witness :
  (1 # 2) ^ 2 <= 2 ^ 60
  /\
  (~ (1 # 2) ^ 2 == 4 ->
   exists r,
     PriceCompetition.bertrand_competition 10 10 100 1 (1 # 2) = Some r)
  /\
  (0 <= 1 # 2 /\ 1 # 2 <= 1 ->
   3 <= 4 - (1 # 2) ^ 2 /\
   ~ 1 * (4 - (1 # 2) ^ 2) == 0 /\
   exists r,
     PriceCompetition.bertrand_competition 10 10 100 1 (1 # 2) = Some r
     /\ within (2 ^ 124) (PriceCompetition.quantity1 r)
     /\ within (2 ^ 124) (PriceCompetition.quantity2 r)).
Proof.
  apply (bertrand_gamma_unchecked 10 10 100 1 (1 # 2));
    try (split; decide_bound); decide_bound.
Defined.

(** ** Auctions: array helpers *)

Section Arrays.

Import AuctionTheory.

Lemma where_ge_In (arr : list Q) (x : Q) (i : nat) :
  In i (where_ge arr x) <-> (i < length arr)%nat /\ x <= nth i arr 0.
Proof.
  unfold where_ge. rewrite filter_In, in_seq, geb_true. intuition lia.
Qed.

Lemma take_length (arr : list Q) (idx : list nat) :
  length (take arr idx) = length idx.
Proof. apply length_map. Qed.

Lemma take_nth (arr : list Q) (idx : list nat) (k : nat) :
  (k < length idx)%nat ->
  nth k (take arr idx) 0 = nth (nth k idx 0%nat) arr 0.
Proof.
  intro Hk. unfold take.
  rewrite (nth_indep _ 0 (nth 0%nat arr 0)) by (now rewrite length_map).
  apply (map_nth (fun i => nth i arr 0)).
Qed.

(** The scan of [argmax_from] over [l], whose entries sit at the
    positions [i, i + 1, ...] of an array read through [f]. *)
Lemma argmax_from_spec (f : nat -> Q) (l : list Q) :
  forall best_i best i,
    f best_i = best ->
    (forall k, (k < length l)%nat -> f (i + k)%nat = nth k l 0) ->
    let r := argmax_from best_i best i l in
    (r = best_i \/ (i <= r < i + length l)%nat) /\
    best <= f r /\
    (forall k, (k < length l)%nat -> nth k l 0 <= f r).
Proof.
  induction l as [| x t IH]; intros best_i best i Hbest Hf; cbn.
  - split; [now left|]. split; [rewrite Hbest; lra|]. intros k Hk. lia.
  - assert (Hx : f i = x).
    { specialize (Hf 0%nat). rewrite Nat.add_0_r in Hf. apply Hf. cbn. lia. }
    assert (Ht : forall k, (k < length t)%nat -> f (S i + k)%nat = nth k t 0).
    { intros k Hk. specialize (Hf (S k)). cbn in Hf.
      rewrite <- Hf by lia. f_equal. lia. }
    destruct (gtb x best) eqn:E.
    + apply gtb_true in E.
      destruct (IH i x (S i) Hx Ht) as (Hr & Hb & Hall).
      split; [right; lia|]. split; [lra|].
      intros [| k] Hk; [exact Hb | apply Hall; lia].
    + apply gtb_false in E.
      destruct (IH best_i best (S i) Hbest Ht) as (Hr & Hb & Hall).
      split; [destruct Hr; [now left | right; lia]|]. split; [exact Hb|].
      intros [| k] Hk; [lra | apply Hall; lia].
Qed.

Lemma argmax_spec (l : list Q) :
  l <> [] ->
  (argmax l < length l)%nat /\
  (forall k, (k < length l)%nat -> nth k l 0 <= nth (argmax l) l 0).
Proof.
  destruct l as [| x t]; [congruence | intros _].
  destruct (argmax_from_spec (fun k => nth k (x :: t) 0) t 0%nat x 1%nat
              eq_refl (fun k _ => eq_refl)) as (Hr & Hb & Hall).
  cbn [argmax length]. split; [lia|].
  intros [| k] Hk; [exact Hb | apply Hall; lia].
Qed.

Lemma insert_sorted_In (x y : Q) (l : list Q) :
  In y (insert_sorted x l) <-> y = x \/ In y l.
Proof.
  induction l as [| z t IH]; cbn.
  - intuition.
  - destruct (Qle_bool x z); cbn; [intuition | rewrite IH; intuition].
Qed.

Lemma np_sort_In (y : Q) (l : list Q) : In y (np_sort l) <-> In y l.
Proof.
  induction l as [| x t IH]; cbn; [tauto|].
  rewrite insert_sorted_In, IH. intuition.
Qed.

Lemma insert_sorted_length (x : Q) (l : list Q) :
  length (insert_sorted x l) = S (length l).
Proof.
  induction l as [| z t IH]; cbn; [reflexivity|].
  destruct (Qle_bool x z); cbn; [reflexivity | now rewrite IH].
Qed.

Lemma np_sort_length (l : list Q) : length (np_sort l) = length l.
Proof.
  induction l as [| x t IH]; cbn; [reflexivity|].
  now rewrite insert_sorted_length, IH.
Qed.

Lemma partition_second_last_In (l : list Q) :
  (1 < length l)%nat -> In (partition_second_last l) l.
Proof.
  intro H. apply np_sort_In. unfold partition_second_last, second_last.
  apply nth_In. rewrite !np_sort_length. lia.
Qed.

Lemma In_take (arr : list Q) (idx : list nat) (v : Q) :
  In v (take arr idx) -> exists k, (k < length idx)%nat /\ v = nth k (take arr idx) 0.
Proof.
  intro H. destruct (In_nth _ _ 0 H) as (k & Hk & Hv).
  exists k. rewrite take_length in Hk. now split.
Qed.

End Arrays.

(** ** Second-price sealed-bid auction *)

Section SecondPrice.

Import AuctionTheory.

Variable valuations : list Q.
Variable reserve_price : Q.

Let feasible_bidders := where_ge valuations reserve_price.
Let feasible_bids := take valuations feasible_bidders.
Let winner_idx := nth (argmax feasible_bids) feasible_bidders 0%nat.

Lemma no_feasible_bidder :
  (length feasible_bidders =? 0)%nat = true <->
  (forall i, (i < length valuations)%nat -> nth i valuations 0 < reserve_price).
Proof.
  rewrite Nat.eqb_eq, length_zero_iff_nil. split.
  - intros Hnil i Hi. apply Qnot_le_lt. intro Hle.
    assert (Hin : In i feasible_bidders) by (apply where_ge_In; now split).
    rewrite Hnil in Hin. exact Hin.
  - intro Hall. destruct feasible_bidders as [| i t] eqn:E; [reflexivity|].
    assert (Hin : In i feasible_bidders) by (rewrite E; now left).
    apply where_ge_In in Hin. destruct Hin as [Hi Hle].
    specialize (Hall i Hi). lra.
Qed.

Section SomeoneClears.

Hypothesis clears : (length feasible_bidders =? 0)%nat = false.

Lemma feasible_bids_nonempty : feasible_bids <> [].
Proof.
  intro H. apply (f_equal (@length Q)) in H.
  unfold feasible_bids in H. rewrite take_length in H. cbn in H.
  apply Nat.eqb_neq in clears. contradiction.
Qed.

Lemma argmax_feasible : (argmax feasible_bids < length feasible_bidders)%nat.
Proof.
  destruct (argmax_spec feasible_bids feasible_bids_nonempty) as [H _].
  unfold feasible_bids in H at 2. now rewrite take_length in H.
Qed.

Lemma winner_is_feasible : In winner_idx feasible_bidders.
Proof. apply nth_In, argmax_feasible. Qed.

Lemma winner_in_range : (winner_idx < length valuations)%nat.
Proof. apply (where_ge_In valuations reserve_price), winner_is_feasible. Qed.

Lemma winner_clears_reserve : reserve_price <= nth winner_idx valuations 0.
Proof. apply (where_ge_In valuations reserve_price), winner_is_feasible. Qed.

Lemma winner_bid_is_max_bid :
  nth (argmax feasible_bids) feasible_bids 0 = nth winner_idx valuations 0.
Proof. apply take_nth, argmax_feasible. Qed.

Lemma winner_beats_feasible_bids (v : Q) :
  In v feasible_bids -> v <= nth winner_idx valuations 0.
Proof.
  intro Hv. destruct (In_take _ _ _ Hv) as (k & Hk & ->).
  rewrite <- winner_bid_is_max_bid.
  apply (argmax_spec feasible_bids feasible_bids_nonempty).
  unfold feasible_bids. now rewrite take_length.
Qed.

Lemma winner_has_highest_valuation (i : nat) :
  (i < length valuations)%nat ->
  nth i valuations 0 <= nth winner_idx valuations 0.
Proof.
  intro Hi. destruct (Qlt_le_dec (nth i valuations 0) reserve_price) as [Hlt | Hge].
  - pose proof winner_clears_reserve. lra.
  - assert (Hin : In i feasible_bidders) by (apply where_ge_In; now split).
    destruct (In_nth _ _ 0%nat Hin) as (k & Hk & Hik).
    apply winner_beats_feasible_bids.
    rewrite <- Hik, <- (take_nth valuations feasible_bidders k Hk).
    apply nth_In. unfold feasible_bids. now rewrite take_length.
Qed.

Lemma second_price_with_winner :
  exists p,
    second_price_sealed_bid valuations reserve_price =
    mkAuction (Some winner_idx) (nth winner_idx valuations 0) (Some p) p
      (nth winner_idx valuations 0 - p) 1 (Some valuations) None
      (Some valuations) "Second-Price Sealed-Bid"
    /\ reserve_price <= p
    /\ p <= nth winner_idx valuations 0.
Proof.
  unfold second_price_sealed_bid.
  fold feasible_bidders. rewrite clears. fold feasible_bids. fold winner_idx.
  eexists. split; [reflexivity|]. split; [apply pymax_ge_r|].
  apply pymax_lub; [|apply winner_clears_reserve].
  destruct (1 <? length feasible_bids)%nat eqn:E.
  - apply Nat.ltb_lt in E.
    apply winner_beats_feasible_bids, partition_second_last_In, E.
  - apply winner_clears_reserve.
Qed.

End SomeoneClears.

Lemma second_price_without_winner :
  (length feasible_bidders =? 0)%nat = true ->
  second_price_sealed_bid valuations reserve_price =
  mkAuction None 0 None 0 0 0 (Some valuations) None None
    "Second-Price Sealed-Bid".
Proof.
  intro H. unfold second_price_sealed_bid. fold feasible_bidders.
  now rewrite H.
Qed.

End SecondPrice.

(** C2, as stated, fails: a single bidder valuing the item at [1] under a
    reserve price of [5] gets the no-winner result, whose efficiency flag
    is [0]. *)
Lemma second_price_efficiency_counterexample :
  ~ (forall valuations reserve_price,
        AuctionTheory.efficiency
          (AuctionTheory.second_price_sealed_bid valuations reserve_price)
        == 1).
Proof.
  intro H. specialize (H [1] 5). vm_compute in H. discriminate.
Qed.

(** C2, amended: whenever at least one valuation reaches the reserve
    price, [second_price_sealed_bid] sets the efficiency flag to [1] and
    the winner is a bidder whose valuation no other valuation exceeds.
    When no valuation reaches the reserve price the result has no winner
    and efficiency [0]. *)
Theorem second_price_efficient_when_reserve_met
    (valuations : list Q) (reserve_price : Q) :
  let r := AuctionTheory.second_price_sealed_bid valuations reserve_price in
  ((exists i, (i < length valuations)%nat /\
              reserve_price <= nth i valuations 0) ->
   AuctionTheory.efficiency r = 1 /\
   exists w, AuctionTheory.winner r = Some w /\
             (w < length valuations)%nat /\
             forall i, (i < length valuations)%nat ->
                       nth i valuations 0 <= nth w valuations 0) /\
  ((forall i, (i < length valuations)%nat ->
              nth i valuations 0 < reserve_price) ->
   AuctionTheory.efficiency r = 0 /\ AuctionTheory.winner r = None).
Proof.
  intro r. subst r. split.
  - intros (i & Hi & Hle).
    assert (clears :
      (length (AuctionTheory.where_ge valuations reserve_price) =? 0)%nat
      = false).
    { apply not_true_is_false. intro Hn.
      pose proof (proj1 (no_feasible_bidder valuations reserve_price) Hn i Hi).
      lra. }
    destruct (second_price_with_winner valuations reserve_price clears)
      as (p & -> & _ & _).
    cbn. split; [reflexivity|]. eexists. split; [reflexivity|].
    split; [now apply winner_in_range|].
    now apply winner_has_highest_valuation.
  - intro Hall.
    pose proof (proj2 (no_feasible_bidder valuations reserve_price) Hall)
      as Hnone.
    rewrite (second_price_without_winner _ _ Hnone). now split.
Qed.

Lemma second_price_efficient_when_reserve_met_witness :
  let r := AuctionTheory.second_price_sealed_bid [3; 7; 5] 4 in
  AuctionTheory.efficiency r = 1 /\
  exists w, AuctionTheory.winner r = Some w /\
            (w < 3)%nat /\
            forall i, (i < 3)%nat -> nth i [3; 7; 5] 0 <= nth w [3; 7; 5] 0.
Proof.
  apply (second_price_efficient_when_reserve_met [3; 7; 5] 4).
  exists 1%nat. split; [cbn; lia | discriminate].
Defined.

(** C8, as stated, fails on an [int64] array: with the single valuation
    [2^63 - 1] and reserve price [-2] the winner pays [-2], which is below
    the valuation, but the subtraction in [winner_surplus] wraps around and
    the surplus reported is [-9223372036854775807]. *)
Lemma second_price_surplus_counterexample :
  let r := Int64.second_price_sealed_bid [9223372036854775807]%Z (-2)%Z in
  Int64.winner r = Some 0%nat
  /\ Int64.payment r = Some (-2)%Z
  /\ Int64.winner_surplus r = (-9223372036854775807)%Z
  /\ (Int64.winner_surplus r < 0)%Z.
Proof. cbv zeta. repeat split. Qed.

Lemma within_nth (bound : Q) (l : list Q) (i : nat) :
  Forall (within bound) l -> (i < length l)%nat -> within bound (nth i l 0).
Proof.
  intros H Hi. rewrite Forall_forall in H. apply H. now apply nth_In.
Qed.

(** C8, amended: whenever [second_price_sealed_bid] returns a winner, the
    payment (which is also the revenue) is at least the reserve price and
    at most the winner's own valuation; and when the valuations and the
    reserve price have magnitude at most [2^61], the winner's surplus lies
    between [0] and [2^62], so that neither binary64 nor [int64]
    subtraction, the two element types numpy gives an array built from
    Python numbers, can turn it negative. *)
Theorem second_price_individually_rational
    (valuations : list Q) (reserve_price : Q) (w : nat) :
  let r := AuctionTheory.second_price_sealed_bid valuations reserve_price in
  AuctionTheory.winner r = Some w ->
  exists p,
    AuctionTheory.payment r = Some p /\
    AuctionTheory.revenue r = p /\
    reserve_price <= p /\
    p <= nth w valuations 0 /\
    (Forall (within (2 ^ 61)) valuations -> within (2 ^ 61) reserve_price ->
     0 <= AuctionTheory.winner_surplus r
     /\ AuctionTheory.winner_surplus r <= 2 ^ 62).
Proof.
  intros r Hw. subst r.
  destruct (length (AuctionTheory.where_ge valuations reserve_price) =? 0)%nat
    eqn:clears.
  - rewrite (second_price_without_winner _ _ clears) in Hw. discriminate.
  - destruct (second_price_with_winner valuations reserve_price clears)
      as (p & E & Hres & Hp).
    pose proof (winner_in_range valuations reserve_price clears) as Hrange.
    cbv zeta in Hrange.
    rewrite E in Hw |- *. cbn in Hw |- *. injection Hw as <-.
    exists p. repeat split; try assumption.
    + lra.
    + destruct (within_nth _ _ _ H Hrange) as [_ Hv].
      destruct H0 as [Hr _].
      assert (E62 : 2 ^ 62 == 2 ^ 61 + 2 ^ 61) by reflexivity.
      rewrite E62. lra.
Qed.

Lemma second_price_individually_rational_witness :
  exists p,
    AuctionTheory.payment (AuctionTheory.second_price_sealed_bid [3; 7; 5] 4)
    = Some p /\
    AuctionTheory.revenue (AuctionTheory.second_price_sealed_bid [3; 7; 5] 4)
    = p /\
    4 <= p /\
    p <= nth 1 [3; 7; 5] 0 /\
    (Forall (within (2 ^ 61)) [3; 7; 5] -> within (2 ^ 61) 4 ->
     0 <= AuctionTheory.winner_surplus
            (AuctionTheory.second_price_sealed_bid [3; 7; 5] 4)
     /\ AuctionTheory.winner_surplus
          (AuctionTheory.second_price_sealed_bid [3; 7; 5] 4) <= 2 ^ 62).
Proof.
  apply (second_price_individually_rational [3; 7; 5] 4 1). reflexivity.
Defined.

(** ** English auction *)

Lemma inject_nat_succ (n : nat) :
  inject_Z (Z.of_nat (S n)) == inject_Z (Z.of_nat n) + 1.
Proof. rewrite Nat2Z.inj_succ. unfold Z.succ. now rewrite inject_Z_plus. Qed.



Section EnglishLoop.

Import AuctionTheory.

Variable valuations : list Q.
Variable increment : Q.

Let keep (price : Q) (active : list nat) : list nat :=
  filter (fun i => geb (nth i valuations 0) (price + increment)) active.

Lemma english_loop_unfold (fuel : nat) (active : list nat) (price : Q) :
  english_loop fuel valuations increment active price =
  if (1 <? length active)%nat then
    match fuel with
    | O => None
    | S fuel' =>
        english_loop fuel' valuations increment (keep price active)
          (price + increment)
    end
  else Some (active, price).
Proof. destruct fuel; reflexivity. Qed.

(** The loop only ever stops with at most one bidder left. *)
Lemma english_loop_exit (fuel : nat) :
  forall active price active' price',
    english_loop fuel valuations increment active price
    = Some (active', price') ->
    (length active' <= 1)%nat /\ incl active' active.
Proof.
  induction fuel as [| fuel IH]; intros active price active' price';
    rewrite english_loop_unfold;
    destruct (1 <? length active)%nat eqn:E; try discriminate.
  - intros [= <- <-]. apply Nat.ltb_ge in E. split; [exact E | apply incl_refl].
  - intro H. destruct (IH _ _ _ _ H) as [Hlen Hincl]. split; [exact Hlen|].
    intros k Hk. apply Hincl in Hk. unfold keep in Hk.
    now apply filter_In in Hk.
  - intros [= <- <-]. apply Nat.ltb_ge in E. split; [exact E | apply incl_refl].
Qed.


Hypothesis increment_pos : 0 < increment.





End EnglishLoop.



Section EnglishPrices.

Import AuctionTheory.

Variable valuations : list Q.
Variables increment highest : Q.
Hypothesis highest_bounds :
  forall i, (i < length valuations)%nat -> nth i valuations 0 <= highest.


End EnglishPrices.







Section TiedTopBidders.

Import AuctionTheory.

Variable valuations : list Q.
Variable increment : Q.
Variables i j : nat.

Hypothesis distinct : i <> j.
Hypothesis tie : nth i valuations 0 == nth j valuations 0.
Hypothesis top : forall k, (k < length valuations)%nat ->
                           nth k valuations 0 <= nth i valuations 0.


End TiedTopBidders.




(** ** Game theory *)

(** With the column player's own payoffs the search finds mutual defection
    and nothing else. *)
Lemma nash_search_with_transposed_payoffs :
  GameTheory.find_nash_equilibria standard_dilemma standard_dilemma_p2
    ["Cooperate"%string; "Defect"%string] ["Cooperate"%string; "Defect"%string]
  = Some [("Defect"%string, "Defect"%string)].
Proof. reflexivity. Qed.

(** C1 at the standard matrix: [prisoners_dilemma] hands the row player's
    matrix to the search for both players, and the one equilibrium it
    reports is (Defect, Cooperate), not (Defect, Defect). *)
Theorem prisoners_dilemma_reports_defect_cooperate :
  option_map GameTheory.equilibrium (GameTheory.prisoners_dilemma standard_dilemma)
  = Some [("Defect"%string, "Cooperate"%string)] /\
  GameTheory.find_nash_equilibria standard_dilemma standard_dilemma
    ["Cooperate"%string; "Defect"%string] ["Cooperate"%string; "Defect"%string]
  = Some [("Defect"%string, "Cooperate"%string)].
Proof. split; reflexivity. Qed.

(** C3 at three rounds of [always_cooperate] against [tit_for_tat]: player
    1 defects in the first round although its strategy is
    [always_cooperate], and the [tit_for_tat] player 2 defects in the first
    round and cooperates in the second although player 1 defected in the
    first. *)
Theorem repeated_game_first_round_actions :
  option_map
    (fun r => (GameTheory.result_history_p1 r, GameTheory.result_history_p2 r))
    (GameTheory.repeated_game_simulation standard_dilemma
       ["Cooperate"%string; "Defect"%string] 3
       "always_cooperate" "tit_for_tat")
  = Some ([1; 0; 0]%nat, [1; 0; 0]%nat).
Proof. reflexivity. Qed.

(** ** Network adoption *)










Section SlowRegime.

Import NetworkEffects.

Variables adoption_threshold population_size : Q.
Hypothesis threshold_nonneg : 0 <= adoption_threshold.
Hypothesis population_pos : 0 < population_size.


End SlowRegime.






(** ** Repeated game: the loop plays [actions_at] *)

Section RepeatedGame.

Import GameTheory.

Variable payoff_matrix : PayoffMatrix.
Variable n_rounds : nat.
Variables strategy_p1 strategy_p2 : string.

Hypothesis matrix_ok : two_by_two payoff_matrix.

Let plays := actions_at strategy_p1 strategy_p2.

Lemma actions_are_bits (t : nat) :
  (fst (plays t) < 2)%nat /\ (snd (plays t) < 2)%nat.
Proof.
  induction t as [| t [IH1 IH2]]; unfold plays in *; cbn [actions_at].
  - unfold first_actions.
    destruct (String.eqb strategy_p1 "tit_for_tat");
      destruct (String.eqb strategy_p2 "always_cooperate"); cbn; lia.
  - unfold next_actions.
    destruct (String.eqb strategy_p1 "tit_for_tat");
      destruct (String.eqb strategy_p1 "always_cooperate");
      destruct (String.eqb strategy_p2 "tit_for_tat");
      destruct (String.eqb strategy_p2 "always_cooperate");
      cbn [fst snd]; lia.
Qed.

Lemma history_extend (pick : nat * nat -> nat) (k : nat) :
  map (fun t => pick (plays t)) (seq 0 k) ++ [pick (plays k)]
  = map (fun t => pick (plays t)) (seq 0 (S k)).
Proof. now rewrite seq_S, map_app. Qed.

Lemma play_rounds_trace (m : nat) :
  forall k s,
    (k + m = n_rounds)%nat ->
    ((0 < m)%nat -> action_p1 s = fst (plays k) /\ action_p2 s = snd (plays k)) ->
    history_p1 s = map (fun t => fst (plays t)) (seq 0 k) ->
    history_p2 s = map (fun t => snd (plays t)) (seq 0 k) ->
    exists s',
      play_rounds payoff_matrix n_rounds strategy_p1 strategy_p2 (seq k m) s
      = Some s' /\
      history_p1 s' = map (fun t => fst (plays t)) (seq 0 n_rounds) /\
      history_p2 s' = map (fun t => snd (plays t)) (seq 0 n_rounds).
Proof.
  induction m as [| m IH]; intros k s Hk Hact Hh1 Hh2.
  - exists s. replace n_rounds with k by lia. now split.
  - destruct (Hact ltac:(lia)) as [Ha1 Ha2].
    destruct (actions_are_bits k) as [Hb1 Hb2].
    cbn [seq play_rounds]. unfold play_round.
    rewrite Ha1, Ha2, Hh1, Hh2.
    destruct (cell payoff_matrix (fst (plays k)) (snd (plays k))) as [x |] eqn:E1;
      [|now apply matrix_ok in E1].
    destruct (cell payoff_matrix (snd (plays k)) (fst (plays k))) as [y |] eqn:E2;
      [|now apply matrix_ok in E2].
    cbn [bind]. rewrite !history_extend.
    destruct (k <? n_rounds - 1)%nat eqn:Elast; cbn [bind].
    + apply IH; [lia | | reflexivity | reflexivity].
      intros _. cbn [action_p1 action_p2]. split; reflexivity.
    + apply IH; [lia | | reflexivity | reflexivity].
      intro Hm. apply Nat.ltb_ge in Elast. lia.
Qed.

Lemma of_nat_zero (n : nat) : of_nat n == 0 -> n = 0%nat.
Proof.
  unfold of_nat, Qeq. cbn [Qnum Qden inject_Z]. lia.
Qed.

(** On a two-by-two matrix and for at least one round the simulation
    returns, and its two histories are the recurrence [actions_at]. *)
Lemma repeated_game_histories (strategies : list string) :
  (0 < n_rounds)%nat ->
  exists r,
    repeated_game_simulation payoff_matrix strategies n_rounds
      strategy_p1 strategy_p2 = Some r /\
    result_history_p1 r = map (fun t => fst (plays t)) (seq 0 n_rounds) /\
    result_history_p2 r = map (fun t => snd (plays t)) (seq 0 n_rounds).
Proof.
  intro Hn. unfold repeated_game_simulation.
  destruct (play_rounds_trace n_rounds 0
              (mkSimulation
                 (if String.eqb strategy_p1 "tit_for_tat" then 0%nat else 1%nat)
                 (if String.eqb strategy_p2 "always_cooperate" then 0%nat
                  else 1%nat) [] [] [] []))
    as (s & Hrun & Hh1 & Hh2); try reflexivity.
  { intros _. split; reflexivity. }
  rewrite Hrun. cbn [bind].
  assert (Hlen1 : length (history_p1 s) = n_rounds)
    by (now rewrite Hh1, length_map, length_seq).
  assert (Hlen2 : length (history_p2 s) = n_rounds)
    by (now rewrite Hh2, length_map, length_seq).
  rewrite !pydiv_some.
  - cbn [bind]. eexists. split; [reflexivity|]. cbn. now split.
  - intro H. apply of_nat_zero in H. lia.
  - intro H. apply of_nat_zero in H. lia.
Qed.

End RepeatedGame.

(** What the loop does for each strategy name, read off the recurrence:
    the row player's [tit_for_tat] opens with cooperation and repeats the
    column player's previous action, whereas the column player's
    [tit_for_tat] opens with defection and repeats the row player's action
    of the same round; the row player's [always_cooperate] defects once,
    in the first round. *)
Lemma actions_by_strategy (strategy_p1 strategy_p2 : string) (t : nat) :
  let plays := actions_at strategy_p1 strategy_p2 in
  (strategy_p1 = "tit_for_tat"%string ->
   fst (plays 0%nat) = 0%nat /\ fst (plays (S t)) = snd (plays t)) /\
  (strategy_p1 = "always_cooperate"%string ->
   fst (plays 0%nat) = 1%nat /\ fst (plays (S t)) = 0%nat) /\
  (strategy_p2 = "tit_for_tat"%string ->
   snd (plays 0%nat) = 1%nat /\ snd (plays (S t)) = fst (plays (S t))) /\
  (strategy_p2 = "always_cooperate"%string -> snd (plays t) = 0%nat) /\
  (strategy_p1 = "always_defect"%string -> fst (plays t) = 1%nat) /\
  (strategy_p2 = "always_defect"%string -> snd (plays t) = 1%nat).
Proof.
  cbv zeta.
  split; [intros ->; split; reflexivity|].
  split; [intros ->; split; reflexivity|].
  split; [intros ->; split; reflexivity|].
  split; [intros ->; destruct t; reflexivity|].
  split; intros ->; destruct t; reflexivity.
Qed.

(** * Further properties of the modules *)

(** ** Shared arithmetic *)

Lemma div_mul (x d : Q) : ~ d == 0 -> x / d * d == x.
Proof. intro H. field. exact H. Qed.



Lemma inject_Z_succ_zero (n : Z) : inject_Z n + 1 == 0 <-> n = (-1)%Z.
Proof. unfold Qeq. cbn. lia. Qed.

Lemma pymin_le_l (x y : Q) : pymin x y <= x.
Proof.
  unfold pymin. destruct (gtb x y) eqn:E; [|lra].
  apply gtb_true in E. lra.
Qed.

Lemma pymin_le_r (x y : Q) : pymin x y <= y.
Proof.
  unfold pymin. destruct (gtb x y) eqn:E; [lra|].
  now apply gtb_false in E.
Qed.

Lemma pymin_glb (x y z : Q) : z <= x -> z <= y -> z <= pymin x y.
Proof. intros Hx Hy. unfold pymin. now destruct (gtb x y). Qed.

Lemma pymax_ge_l (x y : Q) : x <= pymax x y.
Proof.
  unfold pymax. destruct (gtb y x) eqn:E; [|lra].
  apply gtb_true in E. lra.
Qed.


(** Inside the range the clamp is the identity. *)
Lemma clamp_inside (hi x : Q) :
  0 <= x <= hi -> pymax 0 (pymin hi x) == x.
Proof.
  intros [H0 H1]. unfold pymax, pymin.
  destruct (gtb hi x) eqn:E1.
  - destruct (gtb x 0) eqn:E2; [reflexivity|]. apply gtb_false in E2. lra.
  - apply gtb_false in E1.
    destruct (gtb hi 0) eqn:E2; [lra|]. apply gtb_false in E2. lra.
Qed.

(** Above the range the clamp is the upper end. *)
Lemma clamp_above (hi x : Q) :
  0 <= hi -> hi <= x -> pymax 0 (pymin hi x) == hi.
Proof.
  intros H0 H1. unfold pymax, pymin.
  destruct (gtb hi x) eqn:E1.
  - apply gtb_true in E1. lra.
  - destruct (gtb hi 0) eqn:E2; [reflexivity|]. apply gtb_false in E2. lra.
Qed.

(** Below zero the clamp is zero. *)
Lemma clamp_below (hi x : Q) :
  0 <= hi -> x <= 0 -> pymax 0 (pymin hi x) == 0.
Proof.
  intros H0 H1. unfold pymax, pymin.
  destruct (gtb hi x) eqn:E1.
  - destruct (gtb x 0) eqn:E2; [|reflexivity]. apply gtb_true in E2. lra.
  - apply gtb_false in E1.
    destruct (gtb hi 0) eqn:E2; [|reflexivity]. apply gtb_true in E2. lra.
Qed.

(** ** Cournot oligopoly with [n] symmetric firms *)

Section CournotOligopoly.

Import MarketStructures.

Variables a b mc : Q.
Variable n_firms : Z.
Hypothesis b_nonzero : ~ b == 0.
Hypothesis firms_nonneg : (0 <= n_firms)%Z.

Let n := inject_Z n_firms.




End CournotOligopoly.



(** X2.  [cournot_oligopoly] raises exactly when [b = 0] or
    [n_firms = -1]; no other number of firms, negative ones included, is
    rejected. *)
Theorem cournot_oligopoly_fails_iff (a b mc : Q) (n_firms : Z) :
  MarketStructures.cournot_oligopoly a b mc n_firms = None
  <-> b == 0 \/ n_firms = (-1)%Z.
Proof.
  unfold MarketStructures.cournot_oligopoly.
  destruct (pydiv (a - mc) (b * (inject_Z n_firms + 1))) eqn:E; cbn [bind].
  - split; [discriminate|]. intro H.
    assert (Hz : b * (inject_Z n_firms + 1) == 0).
    { destruct H as [H | H]; [rewrite H; ring|].
      apply inject_Z_succ_zero in H. rewrite H. ring. }
    apply pydiv_none_iff with (x := a - mc) in Hz. congruence.
  - split; [intros _ | reflexivity].
    apply pydiv_none_iff in E. apply Qmult_integral in E.
    destruct E as [E | E]; [now left | right].
    now apply inject_Z_succ_zero.
Qed.










(** ** Differentiated Bertrand prices *)





(** ** Cournot and Stackelberg duopoly *)

Section QuantityCompetition.

Import PriceCompetition.

Variables mc1 mc2 a b : Q.
Hypothesis b_nonzero : ~ b == 0.

Lemma two_b_nonzero : ~ 2 * b == 0.
Proof. lra. Qed.



Lemma stackelberg_first_runs :
  exists r, stackelberg_competition mc1 mc2 a b "Firm 1" = Some r
    /\ Quantity.quantity1 r = (a - 2 * mc1 + mc2) / (2 * b)
    /\ Quantity.quantity2 r
       = (a - mc2 - b * Quantity.quantity1 r) / (2 * b)
    /\ Quantity.market_price r
       = a - b * (Quantity.quantity1 r + Quantity.quantity2 r)
    /\ Quantity.profit1 r
       = (Quantity.market_price r - mc1) * Quantity.quantity1 r
    /\ Quantity.profit2 r
       = (Quantity.market_price r - mc2) * Quantity.quantity2 r
    /\ Quantity.total_quantity r
       = Quantity.quantity1 r + Quantity.quantity2 r.
Proof.
  unfold stackelberg_competition.
  change (String.eqb "Firm 1" "Firm 1") with true. cbv iota.
  rewrite !(pydiv_some _ _ two_b_nonzero). cbn [bind].
  rewrite !(pydiv_some _ _ two_b_nonzero). cbn [bind].
  eexists. split; [reflexivity|]. cbn. repeat split.
Qed.

Lemma stackelberg_second_runs (leader : string) :
  leader <> "Firm 1"%string ->
  exists r, stackelberg_competition mc1 mc2 a b leader = Some r
    /\ Quantity.quantity2 r = (a - 2 * mc2 + mc1) / (2 * b)
    /\ Quantity.quantity1 r
       = (a - mc1 - b * Quantity.quantity2 r) / (2 * b)
    /\ Quantity.market_price r
       = a - b * (Quantity.quantity1 r + Quantity.quantity2 r)
    /\ Quantity.profit1 r
       = (Quantity.market_price r - mc1) * Quantity.quantity1 r
    /\ Quantity.profit2 r
       = (Quantity.market_price r - mc2) * Quantity.quantity2 r
    /\ Quantity.total_quantity r
       = Quantity.quantity1 r + Quantity.quantity2 r.
Proof.
  intro Hl. unfold stackelberg_competition.
  rewrite (proj2 (String.eqb_neq leader "Firm 1") Hl).
  rewrite !(pydiv_some _ _ two_b_nonzero). cbn [bind].
  rewrite !(pydiv_some _ _ two_b_nonzero). cbn [bind].
  eexists. split; [reflexivity|]. cbn. repeat split.
Qed.

End QuantityCompetition.





(** X9.  Every [leader] other than the exact string ['Firm 1'] makes firm
    2 the leader: the result is the mirror image of the firm-1-leads
    result for the swapped marginal costs, and the follower, firm 1, plays
    its reaction function. *)
Theorem stackelberg_any_other_leader_is_firm_two
    (mc1 mc2 a b : Q) (leader : string) :
  ~ b == 0 -> leader <> "Firm 1"%string ->
  exists s t,
    PriceCompetition.stackelberg_competition mc1 mc2 a b leader = Some s
    /\ PriceCompetition.stackelberg_competition mc2 mc1 a b "Firm 1" = Some t
    /\ PriceCompetition.Quantity.quantity1 s
       = PriceCompetition.Quantity.quantity2 t
    /\ PriceCompetition.Quantity.quantity2 s
       = PriceCompetition.Quantity.quantity1 t
    /\ PriceCompetition.Quantity.market_price s
       == PriceCompetition.Quantity.market_price t
    /\ PriceCompetition.Quantity.profit1 s
       == PriceCompetition.Quantity.profit2 t
    /\ PriceCompetition.Quantity.profit2 s
       == PriceCompetition.Quantity.profit1 t
    /\ PriceCompetition.Quantity.quantity1 s
       = (a - mc1 - b * PriceCompetition.Quantity.quantity2 s) / (2 * b)
    /\ PriceCompetition.Quantity.leader s = Some leader.
Proof.
  intros Hb Hl.
  destruct (stackelberg_second_runs mc1 mc2 a b Hb leader Hl)
    as (s & Hs & Sq2 & Sq1 & Sp & Sf1 & Sf2 & _).
  destruct (stackelberg_first_runs mc2 mc1 a b Hb)
    as (t & Ht & Tq1 & Tq2 & Tp & Tf1 & Tf2 & _).
  exists s, t. split; [exact Hs|]. split; [exact Ht|].
  assert (E2 : PriceCompetition.Quantity.quantity2 s
               = PriceCompetition.Quantity.quantity1 t)
    by now rewrite Sq2, Tq1.
  assert (E1 : PriceCompetition.Quantity.quantity1 s
               = PriceCompetition.Quantity.quantity2 t)
    by now rewrite Sq1, Tq2, E2.
  assert (EP : PriceCompetition.Quantity.market_price s
               == PriceCompetition.Quantity.market_price t)
    by (rewrite Sp, Tp, E1, E2; ring).
  split; [exact E1|]. split; [exact E2|]. split; [exact EP|].
  split; [now rewrite Sf1, Tf2, EP, E1|].
  split; [now rewrite Sf2, Tf1, EP, E2|].
  split; [exact Sq1|].
  unfold PriceCompetition.stackelberg_competition in Hs.
  destruct (String.eqb leader "Firm 1");
    rewrite !(pydiv_some _ _ (two_b_nonzero b Hb)) in Hs; cbn [bind] in Hs;
    rewrite !(pydiv_some _ _ (two_b_nonzero b Hb)) in Hs; cbn [bind] in Hs;
    injection Hs as <-; reflexivity.
Qed.

Lemma stackelberg_any_other_leader_is_firm_two_witness :
  exists s t,
    PriceCompetition.stackelberg_competition 10 20 100 1 "firm 1" = Some s
    /\ PriceCompetition.stackelberg_competition 20 10 100 1 "Firm 1" = Some t
    /\ PriceCompetition.Quantity.quantity1 s
       = PriceCompetition.Quantity.quantity2 t
    /\ PriceCompetition.Quantity.quantity2 s
       = PriceCompetition.Quantity.quantity1 t
    /\ PriceCompetition.Quantity.market_price s
       == PriceCompetition.Quantity.market_price t
    /\ PriceCompetition.Quantity.profit1 s
       == PriceCompetition.Quantity.profit2 t
    /\ PriceCompetition.Quantity.profit2 s
       == PriceCompetition.Quantity.profit1 t
    /\ PriceCompetition.Quantity.quantity1 s
       = (100 - 10 - 1 * PriceCompetition.Quantity.quantity2 s) / (2 * 1)
    /\ PriceCompetition.Quantity.leader s = Some "firm 1"%string.
Proof.
  apply (stackelberg_any_other_leader_is_firm_two 10 20 100 1 "firm 1");
    [intro H; discriminate H | discriminate].
Defined.


(** ** Platform competition *)

Section PlatformCompetition.

Import NetworkEffects.

Variables network_strength platform1_quality platform2_quality total_users : Q.

(** The share before clamping, in the branch with network effects. *)
Let raw_share : Q :=
  (network_strength * total_users + platform2_quality - platform1_quality)
  / (2 * network_strength * total_users).

Lemma platform_competition_network_branch :
  0 < network_strength -> ~ total_users == 0 ->
  exists r,
    platform_competition network_strength platform1_quality
      platform2_quality total_users = Some r
    /\ Platform.market_share1 r = pymax 0 (pymin 1 raw_share)
    /\ Platform.market_share2 r = 1 - Platform.market_share1 r.
Proof.
  intros Hs Hn. unfold platform_competition.
  rewrite (proj2 (gtb_true network_strength 0) Hs).
  rewrite pydiv_some.
  - cbn [bind]. eexists. split; [reflexivity|]. cbn. split; reflexivity.
  - intro H. apply Qmult_integral in H. destruct H as [H | H]; [|tauto].
    lra.
Qed.

Lemma platform_competition_quality_branch :
  network_strength <= 0 ->
  exists r,
    platform_competition network_strength platform1_quality
      platform2_quality total_users = Some r
    /\ Platform.market_share2 r = 1 - Platform.market_share1 r
    /\ (platform2_quality < platform1_quality ->
        Platform.market_share1 r == 1)
    /\ (platform1_quality < platform2_quality ->
        Platform.market_share1 r == 0)
    /\ (platform1_quality == platform2_quality ->
        Platform.market_share1 r == 1 # 2).
Proof.
  intro Hs. unfold platform_competition.
  rewrite (proj2 (gtb_false network_strength 0) Hs).
  destruct (gtb platform1_quality platform2_quality) eqn:E1;
    [| destruct (gtb platform2_quality platform1_quality) eqn:E2];
    cbn [bind]; (eexists; split; [reflexivity|]);
    cbn [Platform.market_share1 Platform.market_share2];
    (split; [reflexivity|]).
  - apply gtb_true in E1.
    split; [intros _; reflexivity|]. split; intro H; lra.
  - apply gtb_false in E1. apply gtb_true in E2.
    split; [intro H; lra|]. split; [intros _; reflexivity | intro H; lra].
  - apply gtb_false in E1. apply gtb_false in E2.
    split; [intro H; lra|]. split; [intro H; lra | intros _; reflexivity].
Qed.

Lemma raw_share_centred :
  0 < network_strength -> 0 < total_users ->
  raw_share - (1 # 2)
  == (platform2_quality - platform1_quality)
     / (2 * network_strength * total_users).
Proof.
  intros Hs Hn. unfold raw_share. field. split; lra.
Qed.

Lemma raw_share_above_half :
  0 < network_strength -> 0 < total_users ->
  (1 # 2 < raw_share <-> platform1_quality < platform2_quality).
Proof.
  intros Hs Hn. pose proof (raw_share_centred Hs Hn) as C.
  assert (Hd : 0 < 2 * network_strength * total_users) by nra.
  pose proof (div_mul (platform2_quality - platform1_quality) _
                (Qnot_eq_sym _ _ (Qlt_not_eq _ _ Hd))) as M.
  rewrite <- C in M. split; intro H; nra.
Qed.

End PlatformCompetition.

Lemma clamp_above_half (x : Q) :
  1 # 2 < pymax 0 (pymin 1 x) <-> 1 # 2 < x.
Proof.
  destruct (Qlt_le_dec x 0) as [L | L].
  - rewrite (clamp_below 1 x) by lra. split; intro H; lra.
  - destruct (Qlt_le_dec 1 x) as [U | U].
    + rewrite (clamp_above 1 x) by lra. split; intro H; lra.
    + rewrite (clamp_inside 1 x) by lra. tauto.
Qed.

Lemma platform_share_above_half
    (network_strength q1 q2 total_users : Q) :
  0 < total_users ->
  exists r,
    NetworkEffects.platform_competition network_strength q1 q2 total_users
    = Some r
    /\ (1 # 2 < NetworkEffects.Platform.market_share1 r
        <-> if gtb network_strength 0 then q1 < q2 else q2 < q1).
Proof.
  intro Hn.
  destruct (gtb network_strength 0) eqn:G.
  - apply gtb_true in G.
    assert (Hn0 : ~ total_users == 0) by lra.
    destruct (platform_competition_network_branch network_strength q1 q2
                total_users G Hn0) as (r & Hr & Hshare & _).
    exists r. split; [exact Hr|].
    rewrite Hshare, clamp_above_half.
    apply raw_share_above_half; assumption.
  - apply gtb_false in G.
    destruct (platform_competition_quality_branch network_strength q1 q2
                total_users G) as (r & Hr & _ & Hhi & Hlo & Heq).
    exists r. split; [exact Hr|].
    split; intro H.
    + destruct (Qlt_le_dec q2 q1) as [L | L]; [exact L|].
      destruct (Qlt_le_dec q1 q2) as [L' | L'].
      * rewrite (Hlo L') in H. lra.
      * assert (E : q1 == q2) by lra. rewrite (Heq E) in H. lra.
    + rewrite (Hhi H). reflexivity.
Qed.

Lemma small_integer_bounds (x : Q) :
  small_integer x -> - 2 ^ 20 <= x /\ x <= 2 ^ 20.
Proof.
  intros (z & E & B). rewrite E.
  change (- 2 ^ 20) with (inject_Z (- 2 ^ 20)).
  change (2 ^ 20) with (inject_Z (2 ^ 20)).
  rewrite <- !Zle_Qle. lia.
Qed.

Lemma small_integer_gap (x y : Q) :
  small_integer x -> small_integer y -> x < y -> x + 1 <= y.
Proof.
  intros (zx & Ex & _) (zy & Ey & _) H. rewrite Ex, Ey in *.
  rewrite <- Zlt_Qlt in H.
  change 1 with (inject_Z 1). rewrite <- inject_Z_plus, <- Zle_Qle. lia.
Qed.

(** Between small integers a share above one half is above it by a margin
    far wider than the spacing of binary64 numbers around one half. *)
Lemma platform_share_margin
    (network_strength q1 q2 total_users : Q)
    (r : NetworkEffects.Platform.Result) :
  small_integer network_strength -> small_integer q1 -> small_integer q2 ->
  small_integer total_users -> 0 < total_users ->
  NetworkEffects.platform_competition network_strength q1 q2 total_users
  = Some r ->
  1 # 2 < NetworkEffects.Platform.market_share1 r ->
  (1 # 2) + / 2 ^ 42 <= NetworkEffects.Platform.market_share1 r.
Proof.
  intros Hs H1 H2 HN Hn Hr Hhalf.
  destruct (Qlt_le_dec 0 network_strength) as [G | G].
  - assert (Hn0 : ~ total_users == 0) by lra.
    destruct (platform_competition_network_branch network_strength q1 q2
                total_users G Hn0) as (r' & Hr' & Hshare & _).
    rewrite Hr in Hr'. injection Hr' as <-.
    rewrite Hshare in Hhalf |- *.
    apply (proj1 (clamp_above_half _)) in Hhalf.
    pose proof (proj1 (raw_share_above_half network_strength q1 q2
                         total_users G Hn) Hhalf) as Hq.
    pose proof (small_integer_gap q1 q2 H1 H2 Hq) as Hgap.
    pose proof (raw_share_centred network_strength q1 q2 total_users G Hn)
      as C.
    destruct (small_integer_bounds _ Hs) as [_ Bs].
    destruct (small_integer_bounds _ HN) as [_ BN].
    remember ((network_strength * total_users + q2 - q1)
              / (2 * network_strength * total_users)) as raw eqn:Eraw.
    assert (Hd : 0 < 2 * network_strength * total_users) by nra.
    assert (Hd' : 2 * network_strength * total_users <= 2 * 2 ^ 20 * 2 ^ 20).
    { assert (network_strength * total_users <= 2 ^ 20 * 2 ^ 20); [|lra].
      apply Qle_trans with (2 ^ 20 * total_users).
      - apply Qmult_le_compat_r; lra.
      - apply Qmult_le_l; [reflexivity | exact BN]. }
    assert (M : / 2 ^ 41
                <= (q2 - q1) / (2 * network_strength * total_users)).
    { apply Qle_shift_div_l; [exact Hd|].
      apply Qle_trans with (/ 2 ^ 41 * (2 * 2 ^ 20 * 2 ^ 20)).
      - apply Qmult_le_l; [reflexivity | exact Hd'].
      - apply Qle_trans with 1; [decide_bound | lra]. }
    rewrite <- C in M.
    eapply Qle_trans; [| apply pymax_ge_r].
    apply pymin_glb; [decide_bound|].
    apply Qle_trans with ((1 # 2) + / 2 ^ 41); [decide_bound | lra].
  - destruct (platform_competition_quality_branch network_strength q1 q2
                total_users G) as (r' & Hr' & _ & Hhi & Hlo & Heq).
    rewrite Hr in Hr'. injection Hr' as <-.
    destruct (Qlt_le_dec q2 q1) as [L | L].
    + rewrite (Hhi L). decide_bound.
    + destruct (Qlt_le_dec q1 q2) as [L' | L'].
      * rewrite (Hlo L') in Hhalf. lra.
      * assert (E : q1 == q2) by lra. rewrite (Heq E) in Hhalf. lra.
Qed.




(** X13.  Between small integer inputs (network strength, both qualities
    and a positive user count, all integers of magnitude at most [2 ^ 20],
    where every operation of the share formula is exact in binary64),
    [platform_competition] returns, and with positive network strength the
    platform of strictly lower quality takes more than half the market:
    platform 1's share exceeds one half exactly when
    [platform1_quality < platform2_quality].  Without network effects it is
    the other way round: the share exceeds one half exactly when
    [platform2_quality < platform1_quality].  A share above one half is
    above it by at least [2 ^ -42]. *)
Theorem platform_competition_share_by_quality
    (network_strength q1 q2 total_users : Q) :
  small_integer network_strength -> small_integer q1 -> small_integer q2 ->
  small_integer total_users -> 0 < total_users ->
  exists r,
    NetworkEffects.platform_competition network_strength q1 q2 total_users
    = Some r
    /\ (1 # 2 < NetworkEffects.Platform.market_share1 r
        <-> if gtb network_strength 0 then q1 < q2 else q2 < q1)
    /\ (1 # 2 < NetworkEffects.Platform.market_share1 r ->
        (1 # 2) + / 2 ^ 42 <= NetworkEffects.Platform.market_share1 r).
Proof.
  intros Hs H1 H2 HN Hn.
  destruct (platform_share_above_half network_strength q1 q2 total_users Hn)
    as (r & Hr & Hiff).
  exists r. split; [exact Hr|]. split; [exact Hiff|].
  now apply (platform_share_margin network_strength q1 q2 total_users).
Qed.

Lemma small_integer_of_Z (z : Z) :
  (Z.abs z <=? 2 ^ 20)%Z = true -> small_integer (inject_Z z).
Proof.
  intro H. exists z. split; [reflexivity | now apply Z.leb_le].
Qed.

Lemma platform_competition_share_by_quality_witness :
  exists r,
    NetworkEffects.platform_competition 1 5 4 1000 = Some r
    /\ (1 # 2 < NetworkEffects.Platform.market_share1 r
        <-> if gtb 1 0 then 5 < 4 else 4 < 5)
    /\ (1 # 2 < NetworkEffects.Platform.market_share1 r ->
        (1 # 2) + / 2 ^ 42 <= NetworkEffects.Platform.market_share1 r).
Proof.
  apply (platform_competition_share_by_quality 1 5 4 1000);
    try (apply (small_integer_of_Z 1) || apply (small_integer_of_Z 5)
         || apply (small_integer_of_Z 4) || apply (small_integer_of_Z 1000));
    reflexivity.
Defined.

(** X14.  For small integer strengths and qualities (integers of
    magnitude at most [2 ^ 20]), [analyze_network_tipping] returns one
    entry per network strength, in order; an entry names 'Platform 1' the
    winner exactly when platform 1 has the strictly lower quality at a
    positive strength, or the strictly higher quality at a strength of zero
    or below; and the share behind a 'Platform 1' label is above one half
    by at least [2 ^ -42]. *)
Theorem analyze_network_tipping_winners (network_strength_range : list Q)
    (q1 q2 : Q) :
  Forall small_integer network_strength_range ->
  small_integer q1 -> small_integer q2 ->
  exists l,
    NetworkEffects.analyze_network_tipping network_strength_range q1 q2
    = Some l
    /\ map NetworkEffects.Tipping.network_strength l = network_strength_range
    /\ Forall (fun e =>
          (NetworkEffects.Tipping.winner e = "Platform 1"%string
           <-> if gtb (NetworkEffects.Tipping.network_strength e) 0
               then q1 < q2 else q2 < q1)
          /\ (NetworkEffects.Tipping.winner e = "Platform 1"%string ->
              (1 # 2) + / 2 ^ 42
              <= NetworkEffects.Tipping.market_share1 e)) l.
Proof.
  intros Hrange H1 H2.
  induction network_strength_range as [| s rest IH].
  - exists []. repeat split. constructor.
  - inversion Hrange as [| ? ? Hs Hrest]; subst.
    destruct (IH Hrest) as (l & Hl & Hmap & Hall).
    destruct (platform_share_above_half s q1 q2 1000 eq_refl)
      as (r & Hr & Hhalf).
    pose proof (platform_share_margin s q1 q2 1000 r Hs H1 H2
                  (small_integer_of_Z 1000 eq_refl) eq_refl Hr) as Hmargin.
    cbn [NetworkEffects.analyze_network_tipping].
    rewrite Hr. cbn [bind]. rewrite Hl. cbn [bind].
    eexists. split; [reflexivity|].
    split; [cbn [map NetworkEffects.Tipping.network_strength]; now rewrite Hmap|].
    constructor; [|exact Hall].
    cbn [NetworkEffects.Tipping.winner NetworkEffects.Tipping.network_strength
         NetworkEffects.Tipping.market_share1].
    rewrite <- Hhalf.
    destruct (gtb (NetworkEffects.Platform.market_share1 r) (1 # 2)) eqn:G.
    + apply gtb_true in G. tauto.
    + apply gtb_false in G.
      split; [split; [discriminate | intro H; lra] | discriminate].
Qed.

Lemma analyze_network_tipping_winners_witness :
  exists l,
    NetworkEffects.analyze_network_tipping [0; 1; 2] 5 4 = Some l
    /\ map NetworkEffects.Tipping.network_strength l = [0; 1; 2]
    /\ Forall (fun e =>
          (NetworkEffects.Tipping.winner e = "Platform 1"%string
           <-> if gtb (NetworkEffects.Tipping.network_strength e) 0
               then 5 < 4 else 4 < 5)
          /\ (NetworkEffects.Tipping.winner e = "Platform 1"%string ->
              (1 # 2) + / 2 ^ 42
              <= NetworkEffects.Tipping.market_share1 e)) l.
Proof.
  apply (analyze_network_tipping_winners [0; 1; 2] 5 4).
  - repeat constructor;
      (apply (small_integer_of_Z 0) || apply (small_integer_of_Z 1)
       || apply (small_integer_of_Z 2)); reflexivity.
  - apply (small_integer_of_Z 5). reflexivity.
  - apply (small_integer_of_Z 4). reflexivity.
Defined.

(** ** Two-sided market *)

Section TwoSidedMarket.

Import NetworkEffects.

Variables cross_network_effect platform_cost max_users_per_side : Q.

(** The user counts before clamping, as the branch on the denominator
    leaves them. *)
Let prices : Q * Q :=
  if gtb cross_network_effect (1 # 2) then (1 # 10, 8 # 10)
  else (4 # 10, 4 # 10).

Let raw_users : Q * Q :=
  if gtb (1 - cross_network_effect ^ 2) 0 then
    (max_users_per_side *
       (1 - fst prices + cross_network_effect * (1 - snd prices))
     / (1 - cross_network_effect ^ 2),
     max_users_per_side *
       (1 - snd prices + cross_network_effect * (1 - fst prices))
     / (1 - cross_network_effect ^ 2))
  else (max_users_per_side / 2, max_users_per_side / 2).

Lemma two_sided_market_runs :
  exists r,
    two_sided_market cross_network_effect platform_cost max_users_per_side
    = Some r
    /\ TwoSided.users_a r
       = pymax 0 (pymin max_users_per_side (fst raw_users))
    /\ TwoSided.users_b r
       = pymax 0 (pymin max_users_per_side (snd raw_users))
    /\ TwoSided.price_a r = fst prices
    /\ TwoSided.price_b r = snd prices
    /\ TwoSided.revenue r
       = TwoSided.price_a r * TwoSided.users_a r
         + TwoSided.price_b r * TwoSided.users_b r
    /\ TwoSided.profit r = TwoSided.revenue r - platform_cost.
Proof.
  unfold two_sided_market, raw_users, prices.
  destruct (gtb (1 - cross_network_effect ^ 2) 0) eqn:G.
  - apply gtb_true in G.
    assert (Hd : ~ 1 - cross_network_effect ^ 2 == 0) by lra.
    rewrite !(pydiv_some _ _ Hd). cbn [bind].
    eexists. split; [reflexivity|]. cbn. repeat split.
  - cbn [bind]. eexists. split; [reflexivity|]. cbn. repeat split.
Qed.

End TwoSidedMarket.

Lemma two_sided_prices_positive (cross_network_effect : Q) :
  0 < fst (if gtb cross_network_effect (1 # 2) then (1 # 10, 8 # 10)
           else (4 # 10, 4 # 10))
  /\ 0 < snd (if gtb cross_network_effect (1 # 2) then (1 # 10, 8 # 10)
              else (4 # 10, 4 # 10)).
Proof.
  destruct (gtb cross_network_effect (1 # 2)); cbn [fst snd];
    split; reflexivity.
Qed.

Lemma clamp_le_capacity (hi x : Q) : pymax 0 (pymin hi x) <= pymax 0 hi.
Proof.
  apply pymax_lub; [apply pymax_ge_l|].
  pose proof (pymin_le_l hi x). pose proof (pymax_ge_r 0 hi). lra.
Qed.

(** X15.  For inputs of magnitude at most [2 ^ 100], where the square
    [cross_network_effect ** 2] is at most [2 ^ 200] and so stays inside
    the range of binary64, [two_sided_market] returns: the division is
    guarded by [denominator > 0].  Each side has between 0 and
    [max(0, max_users_per_side)] users, the revenue is non-negative and at
    most [2 ^ 100], and the profit lies between [-platform_cost] and
    [2 ^ 101]. *)
Theorem two_sided_market_returns
    (cross_network_effect platform_cost max_users_per_side : Q) :
  within (2 ^ 100) cross_network_effect ->
  within (2 ^ 100) platform_cost ->
  within (2 ^ 100) max_users_per_side ->
  cross_network_effect ^ 2 <= 2 ^ 200
  /\ exists r,
    NetworkEffects.two_sided_market cross_network_effect platform_cost
      max_users_per_side = Some r
    /\ 0 <= NetworkEffects.TwoSided.users_a r <= pymax 0 max_users_per_side
    /\ 0 <= NetworkEffects.TwoSided.users_b r <= pymax 0 max_users_per_side
    /\ 0 <= NetworkEffects.TwoSided.revenue r <= 2 ^ 100
    /\ - platform_cost <= NetworkEffects.TwoSided.profit r <= 2 ^ 101.
Proof.
  intros [Bl Bu] [Cl Cu] [Ml Mu].
  split.
  { change (cross_network_effect ^ 2)
      with (cross_network_effect * cross_network_effect).
    change (2 ^ 200) with (2 ^ 100 * 2 ^ 100).
    remember (2 ^ 100) as L eqn:EL.
    assert (0 <= (L - cross_network_effect) * (L + cross_network_effect))
      by (apply Qmult_le_0_compat; lra).
    lra. }
  destruct (two_sided_market_runs cross_network_effect platform_cost
              max_users_per_side)
    as (r & Hr & Ha & Hb & Hpa & Hpb & Hrev & Hprof).
  assert (Cap : pymax 0 max_users_per_side <= 2 ^ 100).
  { apply pymax_lub; [discriminate | exact Mu]. }
  assert (Ua : 0 <= NetworkEffects.TwoSided.users_a r
               <= pymax 0 max_users_per_side)
    by (rewrite Ha; split; [apply pymax_ge_l | apply clamp_le_capacity]).
  assert (Ub : 0 <= NetworkEffects.TwoSided.users_b r
               <= pymax 0 max_users_per_side)
    by (rewrite Hb; split; [apply pymax_ge_l | apply clamp_le_capacity]).
  assert (R : 0 <= NetworkEffects.TwoSided.revenue r <= 2 ^ 100).
  { rewrite Hrev, Hpa, Hpb.
    remember (2 ^ 100) as L eqn:EL.
    destruct (gtb cross_network_effect (1 # 2)); cbn [fst snd]; lra. }
  exists r. split; [exact Hr|].
  split; [exact Ua|]. split; [exact Ub|]. split; [exact R|].
  rewrite Hprof.
  assert (E : 2 ^ 101 == 2 ^ 100 + 2 ^ 100) by reflexivity.
  rewrite E. remember (2 ^ 100) as L eqn:EL. lra.
Qed.

Lemma two_sided_market_returns_witness :
  (3 # 10) ^ 2 <= 2 ^ 200
  /\ exists r,
    NetworkEffects.two_sided_market (3 # 10) 50 1000 = Some r
    /\ 0 <= NetworkEffects.TwoSided.users_a r <= pymax 0 1000
    /\ 0 <= NetworkEffects.TwoSided.users_b r <= pymax 0 1000
    /\ 0 <= NetworkEffects.TwoSided.revenue r <= 2 ^ 100
    /\ - 50 <= NetworkEffects.TwoSided.profit r <= 2 ^ 101.
Proof.
  apply (two_sided_market_returns (3 # 10) 50 1000); split; decide_bound.
Defined.



(** ** Platform pricing strategy *)

(** X17.  [platform_pricing_strategy] raises exactly in the
    competitive-pricing band, [0.5 < network_strength <= 1], at
    [competition_intensity = 0]; outside that band the competition
    intensity is never read. *)
Theorem platform_pricing_strategy_fails_iff
    (network_strength marginal_cost competition_intensity : Q) :
  NetworkEffects.platform_pricing_strategy network_strength marginal_cost
    competition_intensity = None
  <-> 1 # 2 < network_strength /\ network_strength <= 1
      /\ competition_intensity == 0.
Proof.
  unfold NetworkEffects.platform_pricing_strategy.
  destruct (gtb network_strength 1) eqn:G1.
  - apply gtb_true in G1. cbn [bind].
    split; [discriminate | intros (_ & H & _); lra].
  - apply gtb_false in G1.
    destruct (gtb network_strength (1 # 2)) eqn:G2.
    + apply gtb_true in G2.
      destruct (pydiv (2 # 10) competition_intensity) eqn:E; cbn [bind].
      * split; [discriminate|]. intros (_ & _ & H).
        apply pydiv_none_iff with (x := 2 # 10) in H. congruence.
      * apply pydiv_none_iff in E. tauto.
    + apply gtb_false in G2. cbn [bind].
      split; [discriminate | intros (H & _); lra].
Qed.



(** ** Network adoption: invariants of the loop *)

Lemma div_le_mono (x y d : Q) : 0 < d -> x <= y -> x / d <= y / d.
Proof.
  intros Hd H. unfold Qdiv. apply Qmult_le_compat_r; [exact H|].
  apply Qinv_le_0_compat. lra.
Qed.

Section AdoptionInvariants.

Import NetworkEffects.

Variables adoption_threshold network_value population_size : Q.
Hypothesis population_pos : 0 < population_size.

(** One period never loses adopters and never overshoots the population. *)
Lemma adoption_step_bounds (current_adopters rate : Q) :
  current_adopters <= population_size ->
  let new_adopters :=
    if gtb (network_value * rate) adoption_threshold then
      pymin (population_size - current_adopters)
            ((1 # 10) * (network_value * rate - adoption_threshold)
             * (population_size - current_adopters))
    else (2 # 100) * (population_size - current_adopters) in
  current_adopters <= current_adopters + new_adopters <= population_size.
Proof.
  intros Hc. cbv zeta.
  destruct (gtb (network_value * rate) adoption_threshold) eqn:G.
  - apply gtb_true in G.
    pose proof (pymin_le_l (population_size - current_adopters)
                  ((1 # 10) * (network_value * rate - adoption_threshold)
                   * (population_size - current_adopters))) as U.
    assert (L : 0 <= pymin (population_size - current_adopters)
                  ((1 # 10) * (network_value * rate - adoption_threshold)
                   * (population_size - current_adopters))).
    { apply pymin_glb; [lra | nra]. }
    lra.
  - lra.
Qed.

Lemma adoption_loop_invariant (periods : nat) :
  forall current_adopters,
    current_adopters <= population_size ->
    exists history final,
      adoption_loop periods adoption_threshold network_value
        population_size current_adopters = Some (history, final)
      /\ (length history <= periods)%nat
      /\ current_adopters <= final <= population_size
      /\ Forall (fun rate =>
            current_adopters / population_size <= rate
            /\ rate <= final / population_size) history
      /\ StronglySorted Qle history.
Proof.
  assert (Hp : ~ population_size == 0) by lra.
  induction periods as [| periods IH]; intros current_adopters Hc.
  - exists [], current_adopters. cbn [adoption_loop length].
    split; [reflexivity|]. split; [lia|]. split; [lra|].
    split; constructor.
  - cbn [adoption_loop]. rewrite (pydiv_some _ _ Hp). cbn [bind].
    pose proof (adoption_step_bounds current_adopters
                  (current_adopters / population_size) Hc) as B.
    cbv zeta in B.
    set (next := current_adopters + _) in *.
    assert (Hrate : current_adopters / population_size
                    <= next / population_size)
      by (apply div_le_mono; lra).
    destruct (geb next (population_size * (99 # 100))).
    + exists [current_adopters / population_size], next.
      split; [reflexivity|]. split; [cbn; lia|]. split; [exact B|].
      split.
      * constructor; [split; [lra | exact Hrate] | constructor].
      * repeat constructor.
    + destruct (IH next (proj2 B)) as (history & final & Hrun & Hlen & Hf & Hall & Hs).
      rewrite Hrun. cbn [bind fst snd].
      exists (current_adopters / population_size :: history), final.
      split; [reflexivity|]. split; [cbn [length]; lia|]. split; [lra|].
      assert (Hfin : next / population_size <= final / population_size)
        by (apply div_le_mono; lra).
      split.
      * constructor; [split; lra|].
        eapply Forall_impl; [| exact Hall].
        cbv beta. intros rate [H1 H2]. split; lra.
      * constructor; [exact Hs|].
        eapply Forall_impl; [| exact Hall].
        cbv beta. intros rate [H1 H2]. lra.
Qed.

End AdoptionInvariants.

Lemma first_critical_bound (adoption_history : list Q) (default : nat) :
  forall i,
    let t := NetworkEffects.first_critical i adoption_history default in
    t = default \/ (i <= t < i + length adoption_history)%nat.
Proof.
  induction adoption_history as [| rate rest IH]; intro i;
    cbn [NetworkEffects.first_critical length].
  - now left.
  - destruct (geb rate (1 # 2)); [right; lia|].
    destruct (IH (S i)) as [H | H]; [now left | right; lia].
Qed.

Lemma first_critical_spec (adoption_history : list Q) (default : nat) :
  forall i,
    let t := NetworkEffects.first_critical i adoption_history default in
    (t = default /\ Forall (fun rate => rate < 1 # 2) adoption_history)
    \/ (exists k, t = (i + k)%nat
          /\ (k < length adoption_history)%nat
          /\ 1 # 2 <= nth k adoption_history 0
          /\ forall j, (j < k)%nat -> nth j adoption_history 0 < 1 # 2).
Proof.
  induction adoption_history as [| rate rest IH]; intro i;
    cbn [NetworkEffects.first_critical length].
  - left. split; [reflexivity | constructor].
  - destruct (geb rate (1 # 2)) eqn:G.
    + apply geb_true in G. right. exists 0%nat.
      split; [lia|]. split; [lia|]. split; [exact G|]. intros j Hj. lia.
    + apply geb_false in G.
      destruct (IH (S i)) as [[Hd Hall] | (k & Hk & Hlen & Hge & Hlt)].
      * left. split; [exact Hd | now constructor].
      * right. exists (S k). split; [lia|]. split; [lia|].
        split; [exact Hge|].
        intros [| j] Hj; cbn [nth]; [exact G | apply Hlt; lia].
Qed.

Lemma adoption_loop_records (periods : nat)
    (adoption_threshold network_value population_size current_adopters : Q)
    (history : list Q) (final : Q) :
  NetworkEffects.adoption_loop (S periods) adoption_threshold network_value
    population_size current_adopters = Some (history, final) ->
  history <> [].
Proof.
  cbn [NetworkEffects.adoption_loop].
  destruct (pydiv current_adopters population_size) as [rate |];
    cbn [bind]; [| discriminate].
  match goal with |- (if ?c then _ else _) = _ -> _ => destruct c end.
  - intro H. injection H as <- _. discriminate.
  - match goal with |- bind ?m _ = _ -> _ => destruct m as [rest |] end;
      cbn [bind]; [| discriminate].
    intro H. injection H as <- _. discriminate.
Qed.

(** X19.  For a population between [2 ^ -100] and [2 ^ 100], a threshold
    and a network value of magnitude at most [2 ^ 100], and a horizon of
    [time_periods >= 0] periods, [network_adoption_dynamics] returns; its
    history has at most [time_periods] entries and at least one when
    [time_periods > 0]; the recorded rates are positive, never decrease and
    never exceed the final adoption; and [critical_mass_time] is the index
    of the first recorded rate [>= 0.5], or [time_periods] when no recorded
    rate reaches 0.5, so it is at most [time_periods]. *)
Theorem adoption_history_monotone_and_bounded
    (adoption_threshold network_value population_size : Q)
    (time_periods : nat) :
  within (2 ^ 100) adoption_threshold ->
  within (2 ^ 100) network_value ->
  / 2 ^ 100 <= population_size -> population_size <= 2 ^ 100 ->
  exists r,
    NetworkEffects.network_adoption_dynamics adoption_threshold network_value
      population_size time_periods = Some r
    /\ (length (NetworkEffects.adoption_history r) <= time_periods)%nat
    /\ ((0 < time_periods)%nat -> NetworkEffects.adoption_history r <> [])
    /\ StronglySorted Qle (NetworkEffects.adoption_history r)
    /\ Forall (fun rate =>
         0 < rate /\ rate <= NetworkEffects.final_adoption r)
         (NetworkEffects.adoption_history r)
    /\ (NetworkEffects.critical_mass_time r <= time_periods)%nat
    /\ ((NetworkEffects.critical_mass_time r = time_periods
         /\ Forall (fun rate => rate < 1 # 2)
              (NetworkEffects.adoption_history r))
        \/ ((NetworkEffects.critical_mass_time r
             < length (NetworkEffects.adoption_history r))%nat
            /\ 1 # 2 <= nth (NetworkEffects.critical_mass_time r)
                          (NetworkEffects.adoption_history r) 0
            /\ forall j, (j < NetworkEffects.critical_mass_time r)%nat ->
                 nth j (NetworkEffects.adoption_history r) 0 < 1 # 2)).
Proof.
  intros _ _ Hlow _.
  assert (Hp : 0 < population_size).
  { eapply Qlt_le_trans; [| exact Hlow]. decide_bound. }
  assert (Hp0 : ~ population_size == 0) by lra.
  assert (Hstart : population_size * (1 # 100) <= population_size) by lra.
  destruct (adoption_loop_invariant adoption_threshold network_value
              population_size Hp time_periods _ Hstart)
    as (history & final & Hrun & Hlen & Hf & Hall & Hs).
  unfold NetworkEffects.network_adoption_dynamics.
  rewrite Hrun. cbn [bind fst snd]. rewrite (pydiv_some _ _ Hp0).
  cbn [bind]. eexists. split; [reflexivity|].
  cbn [NetworkEffects.adoption_history NetworkEffects.final_adoption
       NetworkEffects.critical_mass_time].
  assert (E0 : population_size * (1 # 100) / population_size == 1 # 100)
    by (field; exact Hp0).
  split; [exact Hlen|].
  split.
  { destruct time_periods as [| periods]; [lia|]. intros _.
    exact (adoption_loop_records _ _ _ _ _ _ _ Hrun). }
  split; [exact Hs|].
  split.
  { eapply Forall_impl; [| exact Hall].
    cbv beta. intros rate [H1 H2]. split; lra. }
  pose proof (first_critical_bound history time_periods 0%nat) as B.
  cbv zeta in B. split; [lia|].
  destruct (first_critical_spec history time_periods 0%nat)
    as [[Hd Hnone] | (k & Hk & Hklen & Hge & Hlt)].
  - left. split; assumption.
  - right. rewrite Hk. cbn [Nat.add]. split; [exact Hklen|].
    split; [exact Hge | exact Hlt].
Qed.

Lemma adoption_history_monotone_and_bounded_witness :
  exists r,
    NetworkEffects.network_adoption_dynamics (1 # 2) 2 1000 3 = Some r
    /\ (length (NetworkEffects.adoption_history r) <= 3)%nat
    /\ ((0 < 3)%nat -> NetworkEffects.adoption_history r <> [])
    /\ StronglySorted Qle (NetworkEffects.adoption_history r)
    /\ Forall (fun rate =>
         0 < rate /\ rate <= NetworkEffects.final_adoption r)
         (NetworkEffects.adoption_history r)
    /\ (NetworkEffects.critical_mass_time r <= 3)%nat
    /\ ((NetworkEffects.critical_mass_time r = 3%nat
         /\ Forall (fun rate => rate < 1 # 2)
              (NetworkEffects.adoption_history r))
        \/ ((NetworkEffects.critical_mass_time r
             < length (NetworkEffects.adoption_history r))%nat
            /\ 1 # 2 <= nth (NetworkEffects.critical_mass_time r)
                          (NetworkEffects.adoption_history r) 0
            /\ forall j, (j < NetworkEffects.critical_mass_time r)%nat ->
                 nth j (NetworkEffects.adoption_history r) 0 < 1 # 2)).
Proof.
  apply (adoption_history_monotone_and_bounded (1 # 2) 2 1000 3);
    try (split; decide_bound); decide_bound.
Defined.

(** X20.  With [population_size = 0], [network_adoption_dynamics] raises
    for every horizon: inside the loop at the first adoption rate, and for
    an empty horizon at the final adoption rate. *)
Theorem adoption_fails_without_population
    (adoption_threshold network_value population_size : Q)
    (time_periods : nat) :
  population_size == 0 ->
  NetworkEffects.network_adoption_dynamics adoption_threshold network_value
    population_size time_periods = None.
Proof.
  intro Hz. unfold NetworkEffects.network_adoption_dynamics.
  destruct time_periods as [| periods]; cbn [NetworkEffects.adoption_loop].
  - cbn [bind fst snd].
    now rewrite (proj2 (pydiv_none_iff _ population_size) Hz).
  - now rewrite (proj2 (pydiv_none_iff _ population_size) Hz).
Qed.

Lemma adoption_fails_without_population_witness :
  NetworkEffects.network_adoption_dynamics (1 # 2) 2 0 50 = None.
Proof.
  apply (adoption_fails_without_population (1 # 2) 2 0 50). reflexivity.
Defined.

(** ** Auctions: which bidder [np.argmax] picks *)

Section FirstMaximum.

Import AuctionTheory.

(** [arr[arr >= x]] holds the entries at the positions [np.where] lists. *)
Lemma select_ge_take (arr : list Q) (x : Q) :
  select_ge arr x = take arr (where_ge arr x).
Proof.
  unfold select_ge, take, where_ge.
  rewrite <- (filter_map_swap (fun v => geb v x) (fun i => nth i arr 0)).
  f_equal. symmetry. apply nth_ext with (d := 0) (d' := 0).
  - now rewrite length_map, length_seq.
  - intros k Hk. rewrite length_map, length_seq in Hk.
    rewrite (nth_indep _ 0 (nth 0%nat arr 0))
      by (now rewrite length_map, length_seq).
    rewrite (map_nth (fun i => nth i arr 0)), seq_nth by exact Hk.
    reflexivity.
Qed.

(** The positions [np.where] lists are strictly increasing. *)
Lemma filter_seq_increasing (p : nat -> bool) (n : nat) :
  forall a i j,
    (i < j)%nat -> (j < length (filter p (seq a n)))%nat ->
    (nth i (filter p (seq a n)) 0 < nth j (filter p (seq a n)) 0)%nat.
Proof.
  induction n as [| n IH]; intros a i j Hij Hj; cbn [seq filter] in *.
  - cbn in Hj. lia.
  - destruct (p a).
    + destruct j as [| j]; [lia|]. cbn [length] in Hj.
      destruct i as [| i]; cbn [nth].
      * assert (Hin : In (nth j (filter p (seq (S a) n)) 0%nat)
                        (filter p (seq (S a) n)))
          by (apply nth_In; lia).
        apply filter_In in Hin. destruct Hin as [Hin _].
        apply in_seq in Hin. lia.
      * apply IH; lia.
    + apply IH; assumption.
Qed.

Lemma where_ge_position (arr : list Q) (x : Q) (i j : nat) :
  (i < length (where_ge arr x))%nat -> (j < length (where_ge arr x))%nat ->
  (nth i (where_ge arr x) 0 < nth j (where_ge arr x) 0)%nat -> (i < j)%nat.
Proof.
  intros Hi Hj Hlt.
  destruct (Nat.lt_trichotomy i j) as [H | [H | H]]; [exact H | |].
  - subst j. lia.
  - pose proof (filter_seq_increasing
                  (fun k => geb (nth k arr 0) x) (length arr) 0 j i H Hi) as M.
    unfold where_ge in Hlt. lia.
Qed.

(** The scan of [argmax_from] keeps the earliest position of the running
    maximum: everything before the result is strictly smaller. *)
Lemma argmax_from_first (f : nat -> Q) (l : list Q) :
  forall best_i best i,
    f best_i = best ->
    (forall k, (k < length l)%nat -> f (i + k)%nat = nth k l 0) ->
    (best_i < i)%nat ->
    (forall j, (j < best_i)%nat -> f j < best) ->
    (forall j, (j < i)%nat -> f j <= best) ->
    forall j, (j < argmax_from best_i best i l)%nat ->
              f j < f (argmax_from best_i best i l).
Proof.
  induction l as [| x t IH]; intros best_i best i Hbest Hf Hlt Hpre Hall;
    cbn [argmax_from].
  - intros j Hj. rewrite Hbest. now apply Hpre.
  - assert (Hx : f i = x).
    { specialize (Hf 0%nat). rewrite Nat.add_0_r in Hf. apply Hf. cbn. lia. }
    assert (Ht : forall k, (k < length t)%nat -> f (S i + k)%nat = nth k t 0).
    { intros k Hk. specialize (Hf (S k)). cbn in Hf.
      rewrite <- Hf by lia. f_equal. lia. }
    destruct (gtb x best) eqn:E.
    + apply gtb_true in E.
      apply (IH i x (S i) Hx Ht); [lia | |].
      * intros j Hj. specialize (Hall j Hj). lra.
      * intros j Hj.
        destruct (Nat.eq_dec j i) as [-> | Hne]; [rewrite Hx; lra|].
        assert (Hj' : (j < i)%nat) by lia. specialize (Hall j Hj'). lra.
    + apply gtb_false in E.
      apply (IH best_i best (S i) Hbest Ht); [lia | exact Hpre |].
      intros j Hj.
      destruct (Nat.eq_dec j i) as [-> | Hne]; [rewrite Hx; lra|].
      apply Hall. lia.
Qed.

Lemma argmax_first (l : list Q) (j : nat) :
  (j < argmax l)%nat -> nth j l 0 < nth (argmax l) l 0.
Proof.
  destruct l as [| x t]; [cbn; lia|].
  cbn [argmax].
  apply (argmax_from_first (fun k => nth k (x :: t) 0) t 0%nat x 1%nat
           eq_refl (fun k _ => eq_refl)).
  - lia.
  - intros k Hk. lia.
  - intros k Hk. assert (k = 0%nat) as -> by lia. cbn. lra.
Qed.

(** [np.argmax] is the one position that holds a maximum and has only
    strictly smaller entries before it. *)
Lemma argmax_unique (l : list Q) (w : nat) :
  (w < length l)%nat ->
  (forall k, (k < length l)%nat -> nth k l 0 <= nth w l 0) ->
  (forall k, (k < w)%nat -> nth k l 0 < nth w l 0) ->
  w = argmax l.
Proof.
  intros Hw Hmax Hfirst.
  assert (Hne : l <> []) by (destruct l; [cbn in Hw; lia | discriminate]).
  destruct (argmax_spec l Hne) as [Ha Hall].
  destruct (Nat.lt_trichotomy w (argmax l)) as [H | [H | H]]; [| exact H |].
  - pose proof (argmax_first l w H). specialize (Hmax _ Ha). lra.
  - pose proof (Hfirst _ H). specialize (Hall _ Hw). lra.
Qed.

End FirstMaximum.

Section FeasibleWinner.

Import AuctionTheory.

Variable bids : list Q.
Variable reserve_price : Q.
Hypothesis clears : (length (where_ge bids reserve_price) =? 0)%nat = false.

(** The sealed-bid pipeline, [feasible_bidders[np.argmax(feasible_bids)]],
    lands on [np.argmax] of the whole bid array. *)
Lemma feasible_winner_is_argmax :
  nth (argmax (take bids (where_ge bids reserve_price)))
      (where_ge bids reserve_price) 0%nat
  = argmax bids.
Proof.
  set (feasible_bidders := where_ge bids reserve_price).
  set (feasible_bids := take bids feasible_bidders).
  set (a := argmax feasible_bids).
  pose proof (argmax_feasible bids reserve_price clears) as Ha.
  pose proof (winner_clears_reserve bids reserve_price clears) as Hres.
  pose proof (winner_bid_is_max_bid bids reserve_price clears) as Hbid.
  cbv zeta in Ha, Hres, Hbid.
  fold feasible_bidders feasible_bids a in Ha, Hres, Hbid.
  apply argmax_unique.
  - apply (winner_in_range bids reserve_price clears).
  - apply (winner_has_highest_valuation bids reserve_price clears).
  - intros k Hk.
    destruct (Qlt_le_dec (nth k bids 0) reserve_price) as [Hlt | Hge]; [lra|].
    assert (Hkr : (k < length bids)%nat).
    { pose proof (winner_in_range bids reserve_price clears) as W.
      cbv zeta in W. fold feasible_bidders feasible_bids a in W. lia. }
    assert (Hin : In k feasible_bidders) by (apply where_ge_In; now split).
    destruct (In_nth _ _ 0%nat Hin) as (p & Hp & Hpk).
    assert (Hpa : (p < a)%nat).
    { apply (where_ge_position bids reserve_price); [exact Hp | exact Ha |].
      fold feasible_bidders. rewrite Hpk. exact Hk. }
    pose proof (argmax_first feasible_bids p Hpa) as F.
    fold a in F. rewrite Hbid in F.
    unfold feasible_bids in F at 1.
    rewrite (take_nth bids feasible_bidders p Hp), Hpk in F. exact F.
Qed.

End FeasibleWinner.

Lemma nth_map_scale (c : Q) (l : list Q) (k : nat) :
  (k < length l)%nat -> nth k (map (fun v => c * v) l) 0 = c * nth k l 0.
Proof.
  intro Hk.
  rewrite (nth_indep _ 0 (c * 0)) by (now rewrite length_map).
  apply (map_nth (fun v => c * v)).
Qed.

(** Scaling every entry by the same positive factor does not move
    [np.argmax]. *)
Lemma argmax_scale (c : Q) (l : list Q) :
  0 < c ->
  AuctionTheory.argmax (map (fun v => c * v) l) = AuctionTheory.argmax l.
Proof.
  intro Hc. destruct l as [| x t]; [reflexivity|].
  set (l := x :: t).
  assert (Hne : l <> []) by discriminate.
  destruct (argmax_spec l Hne) as [Ha Hall].
  symmetry. apply argmax_unique.
  - now rewrite length_map.
  - intros k Hk. rewrite length_map in Hk.
    rewrite !nth_map_scale by assumption.
    specialize (Hall k Hk). nra.
  - intros k Hk.
    rewrite !nth_map_scale by lia.
    pose proof (argmax_first l k Hk). nra.
Qed.

(** ** Sealed-bid auctions *)

Lemma bidder_count_zero (valuations : list Q) :
  inject_Z (Z.of_nat (length valuations)) == 0 <-> valuations = [].
Proof.
  rewrite <- length_zero_iff_nil. unfold Qeq. cbn [Qnum Qden inject_Z]. lia.
Qed.

Lemma bidder_count_ge_two (valuations : list Q) :
  (2 <= length valuations)%nat ->
  2 <= inject_Z (Z.of_nat (length valuations)).
Proof. intro H. unfold Qle. cbn [Qnum Qden inject_Z]. lia. Qed.

Section FirstPrice.

Import AuctionTheory.

Variable valuations : list Q.
Variable reserve_price : Q.
Hypothesis someone_bids : valuations <> [].

Let n_bidders := inject_Z (Z.of_nat (length valuations)).
Let equilibrium_bids := map (fun v => (n_bidders - 1) / n_bidders * v) valuations.

Lemma first_price_without_winner :
  (length (where_ge equilibrium_bids reserve_price) =? 0)%nat = true ->
  first_price_sealed_bid valuations reserve_price
  = Some (mkAuction None 0 None 0 0 0 (Some equilibrium_bids) None None
            "First-Price Sealed-Bid").
Proof.
  intro H. unfold first_price_sealed_bid. fold n_bidders.
  rewrite pydiv_some
    by (intro Hz; apply bidder_count_zero in Hz; contradiction).
  cbn [bind]. fold equilibrium_bids.
  now rewrite select_ge_take, take_length, H.
Qed.

Lemma first_price_with_winner :
  (length (where_ge equilibrium_bids reserve_price) =? 0)%nat = false ->
  let w := argmax equilibrium_bids in
  first_price_sealed_bid valuations reserve_price
  = Some (mkAuction (Some w) (nth w equilibrium_bids 0) None
            (nth w equilibrium_bids 0)
            (nth w valuations 0 - nth w equilibrium_bids 0)
            (if (w =? argmax valuations)%nat then 1 else 0)
            (Some equilibrium_bids) None (Some valuations)
            "First-Price Sealed-Bid")
  /\ (w < length valuations)%nat
  /\ reserve_price <= nth w equilibrium_bids 0.
Proof.
  intro H. cbv zeta.
  pose proof (feasible_winner_is_argmax equilibrium_bids reserve_price H) as W.
  pose proof (winner_bid_is_max_bid equilibrium_bids reserve_price H) as B.
  pose proof (winner_in_range equilibrium_bids reserve_price H) as R.
  pose proof (winner_clears_reserve equilibrium_bids reserve_price H) as C.
  cbv zeta in B, R, C. rewrite W in B, R, C.
  split; [| split; [| exact C]].
  - unfold first_price_sealed_bid. fold n_bidders.
    rewrite pydiv_some
      by (intro Hz; apply bidder_count_zero in Hz; contradiction).
    cbn [bind]. fold equilibrium_bids.
    rewrite select_ge_take, take_length, H, W, B. reflexivity.
  - unfold equilibrium_bids in R. now rewrite length_map in R.
Qed.

End FirstPrice.

Lemma first_price_bid_order (valuations : list Q) :
  valuations <> [] ->
  let n_bidders := inject_Z (Z.of_nat (length valuations)) in
  AuctionTheory.argmax
    (map (fun v => (n_bidders - 1) / n_bidders * v) valuations)
  = AuctionTheory.argmax valuations.
Proof.
  intros Hne. cbv zeta.
  destruct valuations as [| v [| v' t]]; [contradiction | reflexivity |].
  apply argmax_scale.
  pose proof (bidder_count_ge_two (v :: v' :: t)) as H2.
  apply Qlt_shift_div_l; [| rewrite Qmult_0_l];
    (assert (H : (2 <= length (v :: v' :: t))%nat) by (cbn [length]; lia);
     specialize (H2 H); lra).
Qed.

(** X21.  When some valuation reaches the reserve price,
    [second_price_sealed_bid] sells to bidder [np.argmax(valuations)]: the
    holder of the highest valuation and, among equals, the one with the
    lowest index. *)
Theorem second_price_winner_is_argmax (valuations : list Q) (reserve_price : Q) :
  (exists i, (i < length valuations)%nat
             /\ reserve_price <= nth i valuations 0) ->
  AuctionTheory.winner
    (AuctionTheory.second_price_sealed_bid valuations reserve_price)
  = Some (AuctionTheory.argmax valuations)
  /\ AuctionTheory.winning_bid
       (AuctionTheory.second_price_sealed_bid valuations reserve_price)
     = nth (AuctionTheory.argmax valuations) valuations 0.
Proof.
  intros (i & Hi & Hge).
  destruct (length (AuctionTheory.where_ge valuations reserve_price) =? 0)%nat
    eqn:E.
  - pose proof (proj1 (no_feasible_bidder valuations reserve_price) E i Hi).
    lra.
  - destruct (second_price_with_winner valuations reserve_price E)
      as (p & Hsp & _).
    rewrite Hsp. cbn [AuctionTheory.winner AuctionTheory.winning_bid].
    now rewrite (feasible_winner_is_argmax valuations reserve_price E).
Qed.

Lemma second_price_winner_is_argmax_witness :
  AuctionTheory.winner (AuctionTheory.second_price_sealed_bid [8; 10; 10] 5)
  = Some (AuctionTheory.argmax [8; 10; 10])
  /\ AuctionTheory.winning_bid
       (AuctionTheory.second_price_sealed_bid [8; 10; 10] 5)
     = nth (AuctionTheory.argmax [8; 10; 10]) [8; 10; 10] 0.
Proof.
  apply (second_price_winner_is_argmax [8; 10; 10] 5).
  exists 0%nat. split; [cbn; lia | discriminate].
Defined.

(** X22.  [first_price_sealed_bid] raises exactly on an empty valuation
    array: the bid factor [(n - 1) / n] is computed before the
    reserve-price guard. *)
Theorem first_price_fails_iff_empty (valuations : list Q) (reserve_price : Q) :
  AuctionTheory.first_price_sealed_bid valuations reserve_price = None
  <-> valuations = [].
Proof.
  split.
  - intro H. destruct valuations as [| v t]; [reflexivity|]. exfalso.
    assert (Hne : v :: t <> []) by discriminate.
    destruct (Nat.eqb (length (AuctionTheory.where_ge
                (map (fun x =>
                   (inject_Z (Z.of_nat (length (v :: t))) - 1)
                   / inject_Z (Z.of_nat (length (v :: t))) * x) (v :: t))
                reserve_price)) 0) eqn:E.
    + rewrite (first_price_without_winner (v :: t) reserve_price Hne E) in H.
      discriminate H.
    + destruct (first_price_with_winner (v :: t) reserve_price Hne E)
        as (Hrun & _).
      rewrite Hrun in H. discriminate H.
  - intros ->. reflexivity.
Qed.

(** X23.  A lone bidder bids zero: with one valuation the item is sold at
    price 0 when the reserve price is at most 0, and is not sold at all
    under any positive reserve price, however high the valuation. *)
Theorem first_price_lone_bidder (v reserve_price : Q) :
  exists r,
    AuctionTheory.first_price_sealed_bid [v] reserve_price = Some r
    /\ AuctionTheory.revenue r == 0
    /\ (AuctionTheory.winner r = Some 0%nat <-> reserve_price <= 0)
    /\ (AuctionTheory.winner r = None <-> 0 < reserve_price).
Proof.
  assert (Hne : [v] <> []) by discriminate.
  assert (Hbid : (inject_Z (Z.of_nat (length [v])) - 1)
                 / inject_Z (Z.of_nat (length [v])) * v == 0).
  { change (inject_Z (Z.of_nat (length [v]))) with 1. field. }
  destruct (Nat.eqb (length (AuctionTheory.where_ge
              (map (fun x =>
                 (inject_Z (Z.of_nat (length [v])) - 1)
                 / inject_Z (Z.of_nat (length [v])) * x) [v])
              reserve_price)) 0) eqn:E.
  - rewrite (first_price_without_winner [v] reserve_price Hne E).
    eexists. split; [reflexivity|].
    cbn [AuctionTheory.revenue AuctionTheory.winner].
    pose proof (proj1 (no_feasible_bidder _ _) E 0%nat) as F.
    cbn [length map nth] in F. specialize (F (Nat.lt_0_succ 0)).
    cbn [length] in Hbid. rewrite Hbid in F.
    split; [reflexivity|].
    split; (split; [try discriminate; intro | intro; try reflexivity]); lra.
  - destruct (first_price_with_winner [v] reserve_price Hne E)
      as (Hrun & _ & Hres).
    rewrite Hrun. cbv zeta in Hres.
    assert (Harg : AuctionTheory.argmax
                     (map (fun x =>
                        (inject_Z (Z.of_nat (length [v])) - 1)
                        / inject_Z (Z.of_nat (length [v])) * x) [v]) = 0%nat)
      by reflexivity.
    rewrite Harg in *. cbn [map nth] in Hres.
    eexists. split; [reflexivity|].
    cbn [AuctionTheory.revenue AuctionTheory.winner map nth].
    split; [exact Hbid|]. rewrite Hbid in Hres.
    split; (split; [try discriminate; intro | intro; try reflexivity]); lra.
Qed.

(** X24.  Whenever [first_price_sealed_bid] names a winner, it is the
    first bidder with the highest entry of the returned [bids] array,
    [np.argmax(bids)]: nobody bid more; the winning bid is that entry, the
    revenue is the winning bid and it is at least the reserve price; and
    the efficiency flag is 1 exactly when the winner is also
    [np.argmax(valuations)].  When the valuations are integers of magnitude
    at most [2 ^ 20], whose shaded bids keep their order, the winner is
    [np.argmax(valuations)], holds a highest valuation, and the flag
    is 1. *)
Theorem first_price_sells_to_top_bidder
    (valuations : list Q) (reserve_price : Q)
    (r : AuctionTheory.AuctionResult) (w : nat) :
  AuctionTheory.first_price_sealed_bid valuations reserve_price = Some r ->
  AuctionTheory.winner r = Some w ->
  exists equilibrium_bids,
    AuctionTheory.bids r = Some equilibrium_bids
    /\ length equilibrium_bids = length valuations
    /\ w = AuctionTheory.argmax equilibrium_bids
    /\ (w < length valuations)%nat
    /\ (forall k, (k < length valuations)%nat ->
                  nth k equilibrium_bids 0 <= nth w equilibrium_bids 0)
    /\ AuctionTheory.winning_bid r = nth w equilibrium_bids 0
    /\ AuctionTheory.revenue r = AuctionTheory.winning_bid r
    /\ reserve_price <= AuctionTheory.revenue r
    /\ (AuctionTheory.efficiency r = 1
        <-> w = AuctionTheory.argmax valuations)
    /\ (Forall small_integer valuations ->
        w = AuctionTheory.argmax valuations
        /\ AuctionTheory.efficiency r = 1
        /\ forall k, (k < length valuations)%nat ->
                     nth k valuations 0 <= nth w valuations 0).
Proof.
  intros Hrun Hw.
  assert (Hne : valuations <> []).
  { intros ->. discriminate Hrun. }
  pose proof (first_price_bid_order valuations Hne) as Hord. cbv zeta in Hord.
  destruct (Nat.eqb (length (AuctionTheory.where_ge
              (map (fun x =>
                 (inject_Z (Z.of_nat (length valuations)) - 1)
                 / inject_Z (Z.of_nat (length valuations)) * x) valuations)
              reserve_price)) 0) eqn:E.
  - rewrite (first_price_without_winner valuations reserve_price Hne E)
      in Hrun.
    injection Hrun as <-. discriminate Hw.
  - destruct (first_price_with_winner valuations reserve_price Hne E)
      as (Hres & Hrange & Hclear).
    cbv zeta in Hrange, Hclear. rewrite Hres in Hrun.
    injection Hrun as <-.
    cbn [AuctionTheory.winner] in Hw. injection Hw as <-.
    cbn [AuctionTheory.efficiency AuctionTheory.revenue AuctionTheory.bids
         AuctionTheory.winning_bid].
    eexists. split; [reflexivity|].
    split; [apply length_map|]. split; [reflexivity|].
    split; [exact Hrange|].
    split.
    { intros k Hk. apply argmax_spec.
      - intro Hnil. apply map_eq_nil in Hnil. contradiction.
      - now rewrite length_map. }
    split; [reflexivity|]. split; [reflexivity|]. split; [exact Hclear|].
    split.
    { destruct (Nat.eqb_spec
                  (AuctionTheory.argmax
                     (map (fun x =>
                        (inject_Z (Z.of_nat (length valuations)) - 1)
                        / inject_Z (Z.of_nat (length valuations)) * x)
                        valuations))
                  (AuctionTheory.argmax valuations)) as [Heq | Hneq].
      - tauto.
      - split; [discriminate | contradiction]. }
    intros _. rewrite Hord, Nat.eqb_refl.
    split; [reflexivity|]. split; [reflexivity|].
    apply (argmax_spec valuations Hne).
Qed.

Lemma first_price_sells_to_top_bidder_witness :
  exists r,
    AuctionTheory.first_price_sealed_bid [8; 10; 10] 5 = Some r
    /\ AuctionTheory.winner r = Some 1%nat
    /\ exists equilibrium_bids,
        AuctionTheory.bids r = Some equilibrium_bids
        /\ length equilibrium_bids = length [8; 10; 10]
        /\ 1%nat = AuctionTheory.argmax equilibrium_bids
        /\ (1 < length [8; 10; 10])%nat
        /\ (forall k, (k < length [8; 10; 10])%nat ->
                      nth k equilibrium_bids 0 <= nth 1 equilibrium_bids 0)
        /\ AuctionTheory.winning_bid r = nth 1 equilibrium_bids 0
        /\ AuctionTheory.revenue r = AuctionTheory.winning_bid r
        /\ 5 <= AuctionTheory.revenue r
        /\ (AuctionTheory.efficiency r = 1
            <-> 1%nat = AuctionTheory.argmax [8; 10; 10])
        /\ (Forall small_integer [8; 10; 10] ->
            1%nat = AuctionTheory.argmax [8; 10; 10]
            /\ AuctionTheory.efficiency r = 1
            /\ forall k, (k < length [8; 10; 10])%nat ->
                         nth k [8; 10; 10] 0 <= nth 1 [8; 10; 10] 0).
Proof.
  eexists. split; [reflexivity|]. split; [reflexivity|].
  apply (first_price_sells_to_top_bidder [8; 10; 10] 5); reflexivity.
Defined.

(** ** Dutch auction *)

Section DutchLoop.

Import AuctionTheory.

Variable valuations : list Q.
Variable decrement : Q.



End DutchLoop.

Section DutchPrices.

Import AuctionTheory.

Variable valuations : list Q.
Variable decrement : Q.

(** The same outcome with every price written as the loop computes it, by
    repeated subtraction of [decrement]. *)
Lemma dutch_loop_falling (sorted_indices : list nat) :
  forall current_price r,
    dutch_loop sorted_indices valuations decrement current_price = Some r ->
    (winner r = None
     /\ revenue r = 0
     /\ final_price r
        = Some (falling_price (length sorted_indices) current_price decrement)
     /\ forall j i v,
          (j < length sorted_indices)%nat ->
          nth_error sorted_indices j = Some i ->
          nth_error valuations i = Some v ->
          v < falling_price j current_price decrement)
    \/ (exists k w v,
          nth_error sorted_indices k = Some w
          /\ nth_error valuations w = Some v
          /\ winner r = Some w
          /\ revenue r = falling_price k current_price decrement
          /\ winning_bid r = revenue r
          /\ final_price r = Some (revenue r)
          /\ revenue r <= v
          /\ forall j i u,
               (j < k)%nat -> nth_error sorted_indices j = Some i ->
               nth_error valuations i = Some u ->
               u < falling_price j current_price decrement).
Proof.
  induction sorted_indices as [| bidder_idx rest IH]; intros price r Hrun;
    cbn [dutch_loop] in Hrun.
  - left. injection Hrun as <-.
    cbn [winner revenue final_price length falling_price].
    repeat (split; [reflexivity|]). intros j i v Hj. lia.
  - destruct (nth_error valuations bidder_idx) as [v0 |] eqn:Ev;
      cbn [bind] in Hrun; [| discriminate].
    destruct (Qle_bool price v0) eqn:Eacc.
    + right. apply Qle_bool_iff in Eacc. injection Hrun as <-.
      exists 0%nat, bidder_idx, v0.
      cbn [winner revenue winning_bid final_price nth_error falling_price].
      split; [reflexivity|]. split; [exact Ev|].
      repeat (split; [reflexivity|]). split; [exact Eacc|].
      intros j i u Hj. lia.
    + assert (Hrej : v0 < price).
      { apply Qnot_le_lt. intro Hle. apply Qle_bool_iff in Hle. congruence. }
      destruct (IH _ _ Hrun) as [(Hw & Hrev & Hp & Href)
                                | (k & w & v & Hk & Hv & Hw & Hrev & Hbid
                                   & Hfin & Hir & Href)].
      * left. split; [exact Hw|]. split; [exact Hrev|].
        split; [exact Hp|].
        intros [| j] i v Hj Hi Hv; cbn [nth_error falling_price] in *.
        -- injection Hi as <-. rewrite Ev in Hv. now injection Hv as <-.
        -- apply (Href j i v); [cbn [length] in Hj; lia | exact Hi | exact Hv].
      * right. exists (S k), w, v. cbn [nth_error falling_price].
        split; [exact Hk|]. split; [exact Hv|]. split; [exact Hw|].
        split; [exact Hrev|]. split; [exact Hbid|]. split; [exact Hfin|].
        split; [exact Hir|].
        intros [| j] i u Hj Hi Hu; cbn [nth_error falling_price] in *.
        -- injection Hi as <-. rewrite Ev in Hu. now injection Hu as <-.
        -- apply (Href j i u); [lia | exact Hi | exact Hu].
Qed.

(** While every valuation and the decrement have magnitude at most
    [bound] and the price is at least [- 2 * bound], the surplus of a sale
    is between 0 and [3 * bound]. *)
Lemma dutch_loop_surplus_range (bound : Q) (sorted_indices : list nat) :
  Forall (within bound) valuations -> within bound decrement ->
  forall current_price r w,
    - (2 * bound) <= current_price ->
    dutch_loop sorted_indices valuations decrement current_price = Some r ->
    winner r = Some w ->
    0 <= winner_surplus r /\ winner_surplus r <= 3 * bound.
Proof.
  intros Hvals [Dl Du].
  induction sorted_indices as [| bidder_idx rest IH];
    intros price r w Hlow Hrun Hw; cbn [dutch_loop] in Hrun.
  - injection Hrun as <-. discriminate Hw.
  - destruct (nth_error valuations bidder_idx) as [v0 |] eqn:Ev;
      cbn [bind] in Hrun; [| discriminate].
    assert (Hv0 : within bound v0).
    { rewrite Forall_forall in Hvals. apply Hvals.
      now apply nth_error_In with (n := bidder_idx). }
    destruct Hv0 as [Vl Vu].
    destruct (Qle_bool price v0) eqn:Eacc.
    + apply Qle_bool_iff in Eacc. injection Hrun as <-.
      cbn [winner_surplus]. split; lra.
    + assert (Hrej : v0 < price).
      { apply Qnot_le_lt. intro Hle. apply Qle_bool_iff in Hle. congruence. }
      apply (IH (price - decrement) r w); [lra | exact Hrun | exact Hw].
Qed.

End DutchPrices.

(** X25.  [dutch_auction] asks each bidder of [sorted_indices] once, the
    [j]-th at the price the loop has reached after [j] subtractions of
    [decrement] from [starting_price].  It sells to the first bidder whose
    valuation reaches the price of their turn, at that price, which is
    also the reported [winning_bid] and [final_price]; if every bidder
    refuses, nothing is sold and [final_price] is the price after [n]
    subtractions.  When the valuations, the starting price and the
    decrement have magnitude at most [2 ^ 61], so that the difference
    stays inside int64, the winner's surplus is between 0 and
    [3 * 2 ^ 61]. *)
Theorem dutch_auction_outcome
    (sorted_indices : list nat) (valuations : list Q)
    (starting_price decrement : Q) (r : AuctionTheory.AuctionResult) :
  AuctionTheory.dutch_auction sorted_indices valuations starting_price
    decrement = Some r ->
  let price_at (j : nat) := falling_price j starting_price decrement in
  let refused_before (k : nat) :=
    forall j i v,
      (j < k)%nat -> nth_error sorted_indices j = Some i ->
      nth_error valuations i = Some v -> v < price_at j in
  (AuctionTheory.winner r = None
   /\ AuctionTheory.revenue r = 0
   /\ AuctionTheory.final_price r = Some (price_at (length sorted_indices))
   /\ refused_before (length sorted_indices))
  \/ (exists k w v,
        nth_error sorted_indices k = Some w
        /\ nth_error valuations w = Some v
        /\ AuctionTheory.winner r = Some w
        /\ AuctionTheory.revenue r = price_at k
        /\ AuctionTheory.winning_bid r = AuctionTheory.revenue r
        /\ AuctionTheory.final_price r = Some (AuctionTheory.revenue r)
        /\ AuctionTheory.revenue r <= v
        /\ refused_before k
        /\ (Forall (within (2 ^ 61)) valuations ->
            within (2 ^ 61) starting_price -> within (2 ^ 61) decrement ->
            0 <= AuctionTheory.winner_surplus r
            /\ AuctionTheory.winner_surplus r <= 3 * 2 ^ 61)).
Proof.
  intro Hrun. cbv zeta.
  pose proof (dutch_loop_falling valuations decrement sorted_indices
                starting_price r Hrun) as H.
  destruct H as [H | (k & w & v & Hk & Hv & Hw & Hrev & Hbid & Hfin & Hir
                      & Href)];
    [left; exact H | right].
  exists k, w, v. repeat (split; [assumption|]).
  intros Hvals [Sl Su] Hdec.
  apply (dutch_loop_surplus_range valuations decrement (2 ^ 61)
           sorted_indices Hvals Hdec starting_price r w);
    [| exact Hrun | exact Hw].
  remember (2 ^ 61) as B eqn:EB.
  assert (0 <= B) by (subst B; discriminate). lra.
Qed.

Lemma dutch_auction_outcome_witness :
  exists r,
    AuctionTheory.dutch_auction [1; 0]%nat [8; 10] (21 # 2) 3 = Some r
    /\ let price_at (j : nat) := falling_price j (21 # 2) 3 in
       let refused_before (k : nat) :=
         forall j i v,
           (j < k)%nat -> nth_error [1; 0]%nat j = Some i ->
           nth_error [8; 10] i = Some v -> v < price_at j in
       (AuctionTheory.winner r = None
        /\ AuctionTheory.revenue r = 0
        /\ AuctionTheory.final_price r = Some (price_at (length [1; 0]%nat))
        /\ refused_before (length [1; 0]%nat))
       \/ (exists k w v,
             nth_error [1; 0]%nat k = Some w
             /\ nth_error [8; 10] w = Some v
             /\ AuctionTheory.winner r = Some w
             /\ AuctionTheory.revenue r = price_at k
             /\ AuctionTheory.winning_bid r = AuctionTheory.revenue r
             /\ AuctionTheory.final_price r = Some (AuctionTheory.revenue r)
             /\ AuctionTheory.revenue r <= v
             /\ refused_before k
             /\ (Forall (within (2 ^ 61)) [8; 10] ->
                 within (2 ^ 61) (21 # 2) -> within (2 ^ 61) 3 ->
                 0 <= AuctionTheory.winner_surplus r
                 /\ AuctionTheory.winner_surplus r <= 3 * 2 ^ 61)).
Proof.
  eexists. split; [reflexivity|].
  apply (dutch_auction_outcome [1; 0]%nat [8; 10] (21 # 2) 3). reflexivity.
Defined.





(** ** Entry game *)

Lemma gtb_irrefl (x : Q) : gtb x x = false.
Proof. apply gtb_false. lra. Qed.

Ltac split_members :=
  repeat match goal with
  | H : _ \/ _ |- _ => destruct H
  | H : _ /\ _ |- _ => destruct H
  | H : False |- _ => destruct H
  | H : @eq (string * string) _ _ |- _ => first [discriminate H | clear H]
  end.

(** X27.  [entry_game] returns for all inputs and always finds at least
    one pure equilibrium: both firms entering is an equilibrium exactly
    when the duopoly profit covers the entry cost; one firm entering alone
    is one exactly when the monopoly profit covers the cost and the
    duopoly profit does not exceed it; nobody entering is one exactly when
    the monopoly profit does not exceed the cost. *)
Theorem entry_game_equilibria (entry_cost monopoly_profit duopoly_profit : Q) :
  exists r,
    GameTheory.entry_game entry_cost monopoly_profit duopoly_profit = Some r
    /\ let eq := GameTheory.Entry.equilibrium r in
       (In ("Enter", "Enter")%string eq <-> entry_cost <= duopoly_profit)
       /\ (In ("Enter", "Stay Out")%string eq
           <-> entry_cost <= monopoly_profit
               /\ duopoly_profit <= entry_cost)
       /\ (In ("Stay Out", "Enter")%string eq
           <-> entry_cost <= monopoly_profit
               /\ duopoly_profit <= entry_cost)
       /\ (In ("Stay Out", "Stay Out")%string eq
           <-> monopoly_profit <= entry_cost)
       /\ eq <> [].
Proof.
  unfold GameTheory.entry_game, GameTheory.find_nash_equilibria.
  cbn [length seq GameTheory.scan_rows GameTheory.scan_columns
       GameTheory.is_nash GameTheory.row_deviation GameTheory.col_deviation
       GameTheory.cell nth_error bind app].
  rewrite !gtb_irrefl.
  destruct (gtb 0 (duopoly_profit - entry_cost)) eqn:E1;
    [apply gtb_true in E1 | apply gtb_false in E1];
  (destruct (gtb 0 (monopoly_profit - entry_cost)) eqn:E2;
    [apply gtb_true in E2 | apply gtb_false in E2]);
  (destruct (gtb (duopoly_profit - entry_cost) 0) eqn:E3;
    [apply gtb_true in E3 | apply gtb_false in E3]);
  (destruct (gtb (monopoly_profit - entry_cost) 0) eqn:E4;
    [apply gtb_true in E4 | apply gtb_false in E4]);
  try (exfalso; lra);
  cbn [bind negb nth_error app];
  (eexists; split; [reflexivity|]);
  cbn [GameTheory.Entry.equilibrium In];
  repeat split; intros; split_members; try lra; try congruence;
  auto 6.
Qed.

(** ** The equilibrium search *)

Lemma cell_payoff (m : GameTheory.PayoffMatrix) (rows cols i j : nat) :
  covers m rows cols -> (i < rows)%nat -> (j < cols)%nat ->
  GameTheory.cell m i j = Some (payoff m i j).
Proof.
  intros [Hr Hc] Hi Hj. unfold GameTheory.cell, payoff.
  rewrite (nth_error_nth' m []) by lia. cbn [bind].
  apply nth_error_nth'. specialize (Hc i Hi). lia.
Qed.

Lemma row_deviation_spec (m : GameTheory.PayoffMatrix)
    (rows cols j : nat) (current : Q) (ks : list nat) :
  covers m rows cols -> (j < cols)%nat ->
  (forall k, In k ks -> (k < rows)%nat) ->
  exists b, GameTheory.row_deviation m j current ks = Some b
    /\ (b = false <-> forall k, In k ks -> payoff m k j <= current).
Proof.
  intros Hm Hj. induction ks as [| k ks IH]; intro Hks;
    cbn [GameTheory.row_deviation].
  - exists false. split; [reflexivity|]. split; [intros _ k [] | reflexivity].
  - rewrite (cell_payoff m rows cols k j Hm (Hks k (in_eq _ _)) Hj).
    cbn [bind].
    destruct (gtb (payoff m k j) current) eqn:E.
    + apply gtb_true in E. exists true. split; [reflexivity|].
      split; [discriminate|]. intro H. specialize (H k (in_eq _ _)). lra.
    + apply gtb_false in E.
      destruct IH as (b & Hb & Hiff); [intros k' Hk'; apply Hks; now right|].
      exists b. split; [exact Hb|]. rewrite Hiff. split.
      * intros H k' [<- | Hk']; [exact E | now apply H].
      * intros H k' Hk'. apply H. now right.
Qed.

Lemma col_deviation_spec (m : GameTheory.PayoffMatrix)
    (rows cols i : nat) (current : Q) (ls : list nat) :
  covers m rows cols -> (i < rows)%nat ->
  (forall l, In l ls -> (l < cols)%nat) ->
  exists b, GameTheory.col_deviation m i current ls = Some b
    /\ (b = false <-> forall l, In l ls -> payoff m i l <= current).
Proof.
  intros Hm Hi. induction ls as [| l ls IH]; intro Hls;
    cbn [GameTheory.col_deviation].
  - exists false. split; [reflexivity|]. split; [intros _ l [] | reflexivity].
  - rewrite (cell_payoff m rows cols i l Hm Hi (Hls l (in_eq _ _))).
    cbn [bind].
    destruct (gtb (payoff m i l) current) eqn:E.
    + apply gtb_true in E. exists true. split; [reflexivity|].
      split; [discriminate|]. intro H. specialize (H l (in_eq _ _)). lra.
    + apply gtb_false in E.
      destruct IH as (b & Hb & Hiff); [intros l' Hl'; apply Hls; now right|].
      exists b. split; [exact Hb|]. rewrite Hiff. split.
      * intros H l' [<- | Hl']; [exact E | now apply H].
      * intros H l' Hl'. apply H. now right.
Qed.

Section NashSearch.

Import GameTheory.

Variables payoff_matrix_p1 payoff_matrix_p2 : PayoffMatrix.
Variables strategies_p1 strategies_p2 : list string.
Hypothesis covers_p1 :
  covers payoff_matrix_p1 (length strategies_p1) (length strategies_p2).
Hypothesis covers_p2 :
  covers payoff_matrix_p2 (length strategies_p1) (length strategies_p2).

Lemma is_nash_spec (i j : nat) :
  (i < length strategies_p1)%nat -> (j < length strategies_p2)%nat ->
  exists b,
    is_nash payoff_matrix_p1 payoff_matrix_p2 (length strategies_p1)
      (length strategies_p2) i j = Some b
    /\ (b = true <->
        stable payoff_matrix_p1 payoff_matrix_p2 strategies_p1 strategies_p2
          i j).
Proof.
  intros Hi Hj. unfold is_nash, stable, no_better_row, no_better_column.
  rewrite (cell_payoff _ _ _ i j covers_p1 Hi Hj). cbn [bind].
  destruct (row_deviation_spec payoff_matrix_p1 _ _ j
              (payoff payoff_matrix_p1 i j) (seq 0 (length strategies_p1))
              covers_p1 Hj) as (d1 & Hd1 & Hiff1).
  { intros k Hk. apply in_seq in Hk. lia. }
  rewrite Hd1. cbn [bind].
  assert (R1 : d1 = false <->
               forall k, (k < length strategies_p1)%nat ->
                         payoff payoff_matrix_p1 k j
                         <= payoff payoff_matrix_p1 i j).
  { rewrite Hiff1. split; intros H k Hk.
    - apply H, in_seq. lia.
    - apply H. apply in_seq in Hk. lia. }
  destruct d1.
  - exists false. split; [reflexivity|]. split; [discriminate|].
    intros [H _]. apply R1 in H. discriminate H.
  - rewrite (cell_payoff _ _ _ i j covers_p2 Hi Hj). cbn [bind].
    destruct (col_deviation_spec payoff_matrix_p2 _ _ i
                (payoff payoff_matrix_p2 i j) (seq 0 (length strategies_p2))
                covers_p2 Hi) as (d2 & Hd2 & Hiff2).
    { intros l Hl. apply in_seq in Hl. lia. }
    rewrite Hd2. cbn [bind]. exists (negb d2). split; [reflexivity|].
    assert (R2 : d2 = false <->
                 forall l, (l < length strategies_p2)%nat ->
                           payoff payoff_matrix_p2 i l
                           <= payoff payoff_matrix_p2 i j).
    { rewrite Hiff2. split; intros H l Hl.
      - apply H, in_seq. lia.
      - apply H. apply in_seq in Hl. lia. }
    rewrite negb_true_iff, R2. split; [intro H; split; [now apply R1 | exact H] | tauto].
Qed.

Lemma scan_columns_spec (i : nat) :
  (i < length strategies_p1)%nat ->
  forall js equilibria,
    (forall j, In j js -> (j < length strategies_p2)%nat) ->
    exists found,
      scan_columns payoff_matrix_p1 payoff_matrix_p2 strategies_p1
        strategies_p2 i js equilibria = Some (equilibria ++ found)
      /\ forall a b,
           In (a, b) found <->
           exists j, In j js
             /\ nth_error strategies_p1 i = Some a
             /\ nth_error strategies_p2 j = Some b
             /\ stable payoff_matrix_p1 payoff_matrix_p2 strategies_p1
                  strategies_p2 i j.
Proof.
  intro Hi. induction js as [| j js IH]; intros equilibria Hjs;
    cbn [scan_columns].
  - exists []. rewrite app_nil_r. split; [reflexivity|].
    intros a b. split; [intros [] | intros (j & [] & _)].
  - assert (Hj : (j < length strategies_p2)%nat) by (apply Hjs; now left).
    assert (Hjs' : forall j', In j' js -> (j' < length strategies_p2)%nat)
      by (intros j' Hj'; apply Hjs; now right).
    destruct (is_nash_spec i j Hi Hj) as (nash & Hnash & Hiff).
    rewrite Hnash. cbn [bind].
    destruct nash.
    + destruct (nth_error strategies_p1 i) as [s1 |] eqn:E1;
        [| apply nth_error_None in E1; lia].
      destruct (nth_error strategies_p2 j) as [s2 |] eqn:E2;
        [| apply nth_error_None in E2; lia].
      cbn [bind].
      destruct (IH (equilibria ++ [(s1, s2)]) Hjs')
        as (found & Hrun & Hin).
      exists ((s1, s2) :: found).
      split; [rewrite Hrun, <- app_assoc; reflexivity|].
      intros a b. cbn [In]. rewrite Hin. split.
      * intros [Heq | (j' & Hj' & Ha & Hb & Hst)].
        -- injection Heq as <- <-. exists j.
           split; [now left|]. split; [reflexivity|]. split; [exact E2|].
           now apply Hiff.
        -- exists j'. split; [now right|]. now split.
      * intros (j' & [<- | Hj'] & Ha & Hb & Hst).
        -- left. congruence.
        -- right. exists j'. now split.
    + destruct (IH equilibria Hjs') as (found & Hrun & Hin).
      exists found. split; [exact Hrun|].
      intros a b. rewrite Hin. split.
      * intros (j' & Hj' & H). exists j'. split; [now right | exact H].
      * intros (j' & [<- | Hj'] & Ha & Hb & Hst).
        -- apply Hiff in Hst. discriminate Hst.
        -- exists j'. now split.
Qed.

Lemma scan_rows_spec (rows : list nat) :
  forall equilibria,
    (forall i, In i rows -> (i < length strategies_p1)%nat) ->
    exists found,
      scan_rows payoff_matrix_p1 payoff_matrix_p2 strategies_p1
        strategies_p2 rows equilibria = Some (equilibria ++ found)
      /\ forall a b,
           In (a, b) found <->
           exists i j, In i rows /\ (j < length strategies_p2)%nat
             /\ nth_error strategies_p1 i = Some a
             /\ nth_error strategies_p2 j = Some b
             /\ stable payoff_matrix_p1 payoff_matrix_p2 strategies_p1
                  strategies_p2 i j.
Proof.
  induction rows as [| i rows IH]; intros equilibria Hrows;
    cbn [scan_rows].
  - exists []. rewrite app_nil_r. split; [reflexivity|].
    intros a b. split; [intros [] | intros (i & j & [] & _)].
  - assert (Hi : (i < length strategies_p1)%nat) by (apply Hrows; now left).
    destruct (scan_columns_spec i Hi (seq 0 (length strategies_p2)) equilibria)
      as (here & Hrun & Hin).
    { intros j Hj. apply in_seq in Hj. lia. }
    rewrite Hrun. cbn [bind].
    destruct (IH (equilibria ++ here)) as (found & Hrest & Hin').
    { intros i' Hi'. apply Hrows. now right. }
    exists (here ++ found).
    split; [rewrite Hrest, <- app_assoc; reflexivity|].
    intros a b. rewrite in_app_iff, Hin, Hin'. split.
    + intros [(j & Hj & H) | (i' & j & Hi' & H)].
      * exists i, j. split; [now left|]. apply in_seq in Hj.
        split; [lia | exact H].
      * exists i', j. split; [now right | exact H].
    + intros (i' & j & [<- | Hi'] & Hj & H).
      * left. exists j. split; [apply in_seq; lia | exact H].
      * right. exists i', j. now split.
Qed.

End NashSearch.

(** X28.  On payoff matrices that have an entry for every pair of
    strategies, [find_nash_equilibria] returns, and the pairs it lists are
    exactly the pure Nash equilibria: [(a, b)] is listed if and only if
    [a] and [b] are the names of a row [i] and a column [j] such that no
    row pays the row player more in column [j] and no column pays the
    column player more in row [i]. *)
Theorem find_nash_equilibria_sound_and_complete
    (payoff_matrix_p1 payoff_matrix_p2 : GameTheory.PayoffMatrix)
    (strategies_p1 strategies_p2 : list string) :
  covers payoff_matrix_p1 (length strategies_p1) (length strategies_p2) ->
  covers payoff_matrix_p2 (length strategies_p1) (length strategies_p2) ->
  exists equilibria,
    GameTheory.find_nash_equilibria payoff_matrix_p1 payoff_matrix_p2
      strategies_p1 strategies_p2 = Some equilibria
    /\ forall a b,
         In (a, b) equilibria <->
         exists i j,
           nth_error strategies_p1 i = Some a
           /\ nth_error strategies_p2 j = Some b
           /\ stable payoff_matrix_p1 payoff_matrix_p2 strategies_p1
                strategies_p2 i j.
Proof.
  intros H1 H2. unfold GameTheory.find_nash_equilibria.
  destruct (scan_rows_spec payoff_matrix_p1 payoff_matrix_p2 strategies_p1
              strategies_p2 H1 H2 (seq 0 (length strategies_p1)) [])
    as (found & Hrun & Hin).
  { intros i Hi. apply in_seq in Hi. lia. }
  exists found. split; [exact Hrun|].
  intros a b. rewrite Hin. split.
  - intros (i & j & _ & _ & H). now exists i, j.
  - intros (i & j & Ha & Hb & Hst). exists i, j.
    assert (Hi : (i < length strategies_p1)%nat)
      by (apply nth_error_Some; congruence).
    assert (Hj : (j < length strategies_p2)%nat)
      by (apply nth_error_Some; congruence).
    split; [apply in_seq; lia|]. split; [exact Hj|]. now split.
Qed.

Lemma find_nash_equilibria_sound_and_complete_witness :
  exists equilibria,
    GameTheory.find_nash_equilibria standard_dilemma standard_dilemma_p2
      ["Cooperate"; "Defect"]%string ["Cooperate"; "Defect"]%string
    = Some equilibria
    /\ forall a b,
         In (a, b) equilibria <->
         exists i j,
           nth_error ["Cooperate"; "Defect"]%string i = Some a
           /\ nth_error ["Cooperate"; "Defect"]%string j = Some b
           /\ stable standard_dilemma standard_dilemma_p2
                ["Cooperate"; "Defect"]%string ["Cooperate"; "Defect"]%string
                i j.
Proof.
  apply (find_nash_equilibria_sound_and_complete standard_dilemma
           standard_dilemma_p2 ["Cooperate"; "Defect"]%string
           ["Cooperate"; "Defect"]%string);
    (split; [cbn; lia | intros [| [| i]] Hi; cbn in *; lia]).
Defined.

(** ** English auction: who is left *)

Section EnglishDropouts.

Import AuctionTheory.

Variable valuations : list Q.
Variable increment : Q.

(** A bidder who leaves the loop has a valuation strictly below that of
    every bidder still active at the end. *)
Lemma english_loop_dropouts (fuel : nat) :
  forall active price active' price',
    english_loop fuel valuations increment active price
    = Some (active', price') ->
    forall w k,
      In w active' -> In k active -> ~ In k active' ->
      nth k valuations 0 < nth w valuations 0.
Proof.
  induction fuel as [| fuel IH]; intros active price active' price' Hrun;
    rewrite english_loop_unfold in Hrun; cbv zeta beta in Hrun;
    destruct (1 <? length active)%nat; try discriminate.
  - injection Hrun as <- <-. intros w k _ Hk Hn. contradiction.
  - intros w k Hw Hk Hn.
    destruct (english_loop_exit valuations increment fuel _ _ _ _ Hrun)
      as [_ Hincl].
    pose proof (Hincl w Hw) as Hw1. apply filter_In in Hw1.
    destruct Hw1 as [_ Hw1]. apply geb_true in Hw1.
    destruct (geb (nth k valuations 0) (price + increment)) eqn:G.
    + apply (IH _ _ _ _ Hrun w k Hw); [| exact Hn].
      apply filter_In. now split.
    + apply geb_false in G. lra.
  - injection Hrun as <- <-. intros w k _ Hk Hn. contradiction.
Qed.

End EnglishDropouts.

(** X29.  Whenever [english_auction] names a winner, that bidder's
    valuation is at least the reserve price and strictly above every other
    bidder's, whatever the increment; the winner is therefore
    [np.argmax(valuations)]. *)
Theorem english_auction_winner_outbids_all
    (fuel : nat) (valuations : list Q) (reserve_price increment : Q)
    (r : AuctionTheory.AuctionResult) (w : nat) :
  AuctionTheory.english_auction fuel valuations reserve_price increment
  = Some r ->
  AuctionTheory.winner r = Some w ->
  (w < length valuations)%nat
  /\ reserve_price <= nth w valuations 0
  /\ (forall k, (k < length valuations)%nat -> k <> w ->
                nth k valuations 0 < nth w valuations 0)
  /\ w = AuctionTheory.argmax valuations.
Proof.
  unfold AuctionTheory.english_auction. intros Hrun Hw.
  destruct (length (AuctionTheory.where_ge valuations reserve_price) =? 0)%nat;
    [injection Hrun as <-; discriminate Hw|].
  destruct (AuctionTheory.english_loop fuel valuations increment
              (AuctionTheory.where_ge valuations reserve_price) reserve_price)
    as [[active price] |] eqn:Eloop; cbn [bind] in Hrun; [| discriminate].
  destruct (length active =? 0)%nat eqn:Elen;
    [injection Hrun as <-; discriminate Hw|].
  injection Hrun as <-. cbn [AuctionTheory.winner] in Hw. injection Hw as <-.
  destruct (english_loop_exit valuations increment fuel _ _ _ _ Eloop)
    as [Hone Hincl].
  destruct active as [| w [| w' rest]];
    [discriminate Elen | | cbn [length] in Hone; lia].
  cbn [nth].
  assert (Hw : In w (AuctionTheory.where_ge valuations reserve_price))
    by (apply Hincl; now left).
  apply where_ge_In in Hw. destruct Hw as [Hrange Hres].
  assert (Hstrict : forall k, (k < length valuations)%nat -> k <> w ->
                              nth k valuations 0 < nth w valuations 0).
  { intros k Hk Hne.
    destruct (Qlt_le_dec (nth k valuations 0) reserve_price) as [L | L];
      [lra|].
    apply (english_loop_dropouts valuations increment fuel _ _ _ _ Eloop).
    - now left.
    - apply where_ge_In. now split.
    - intros [H | []]. now apply Hne. }
  split; [exact Hrange|]. split; [exact Hres|]. split; [exact Hstrict|].
  apply argmax_unique; [exact Hrange | |].
  - intros k Hk. destruct (Nat.eq_dec k w) as [-> | Hne]; [lra|].
    specialize (Hstrict k Hk Hne). lra.
  - intros k Hk. apply Hstrict; lia.
Qed.

Lemma english_auction_winner_outbids_all_witness :
  exists r,
    AuctionTheory.english_auction 20 [8; 10; 3] 0 1 = Some r
    /\ AuctionTheory.winner r = Some 1%nat
    /\ (1 < length [8; 10; 3])%nat
    /\ 0 <= nth 1 [8; 10; 3] 0
    /\ (forall k, (k < length [8; 10; 3])%nat -> k <> 1%nat ->
                  nth k [8; 10; 3] 0 < nth 1 [8; 10; 3] 0)
    /\ 1%nat = AuctionTheory.argmax [8; 10; 3].
Proof.
  eexists. split; [reflexivity|]. split; [reflexivity|].
  eapply (english_auction_winner_outbids_all 20 [8; 10; 3] 0 1); reflexivity.
Defined.

(** ** Repeated game: the number of rounds *)

Lemma any_rounds_play_rounds (payoff_matrix : GameTheory.PayoffMatrix)
    (n_rounds : Z) (strategy_p1 strategy_p2 : string) (rounds : list nat) :
  Forall (fun k => (k < Z.to_nat n_rounds)%nat) rounds ->
  forall s,
    AnyRounds.play_rounds payoff_matrix n_rounds strategy_p1 strategy_p2
      rounds s
    = GameTheory.play_rounds payoff_matrix (Z.to_nat n_rounds) strategy_p1
        strategy_p2 rounds s.
Proof.
  induction 1 as [| k rounds Hk _ IH]; intro s; [reflexivity|].
  cbn [AnyRounds.play_rounds GameTheory.play_rounds].
  assert (E : AnyRounds.play_round payoff_matrix n_rounds strategy_p1
                strategy_p2 k s
              = GameTheory.play_round payoff_matrix (Z.to_nat n_rounds)
                  strategy_p1 strategy_p2 k s).
  { unfold AnyRounds.play_round, GameTheory.play_round.
    assert (T : (Z.of_nat k <? n_rounds - 1)%Z
                = (k <? Z.to_nat n_rounds - 1)%nat).
    { destruct (Z.ltb_spec (Z.of_nat k) (n_rounds - 1));
        destruct (Nat.ltb_spec k (Z.to_nat n_rounds - 1)); try reflexivity;
        lia. }
    now rewrite T. }
  rewrite E.
  destruct (GameTheory.play_round payoff_matrix (Z.to_nat n_rounds)
              strategy_p1 strategy_p2 k s) as [s' |]; cbn [bind];
    [apply IH | reflexivity].
Qed.

(** For every integer [n_rounds] the simulation is the one of
    [max(n_rounds, 0)] rounds. *)
Lemma any_rounds_simulation (payoff_matrix : GameTheory.PayoffMatrix)
    (strategies : list string) (n_rounds : Z)
    (strategy_p1 strategy_p2 : string) :
  AnyRounds.repeated_game_simulation payoff_matrix strategies n_rounds
    strategy_p1 strategy_p2
  = GameTheory.repeated_game_simulation payoff_matrix strategies
      (Z.to_nat n_rounds) strategy_p1 strategy_p2.
Proof.
  unfold AnyRounds.repeated_game_simulation,
    GameTheory.repeated_game_simulation.
  rewrite any_rounds_play_rounds; [reflexivity|].
  apply Forall_forall. intros k Hk. apply in_seq in Hk. lia.
Qed.

Lemma cell_within (bound : Q) (m : GameTheory.PayoffMatrix) (i j : nat)
    (x : Q) :
  Forall (Forall (within bound)) m -> GameTheory.cell m i j = Some x ->
  within bound x.
Proof.
  intros Hm. unfold GameTheory.cell.
  destruct (nth_error m i) as [row |] eqn:Er; cbn [bind]; [| discriminate].
  intro Hx. apply nth_error_In in Er, Hx.
  rewrite Forall_forall in Hm. specialize (Hm row Er).
  rewrite Forall_forall in Hm. now apply Hm.
Qed.

(** Every round appends one matrix entry to each list of payoffs. *)
Lemma play_rounds_payoffs (bound : Q) (payoff_matrix : GameTheory.PayoffMatrix)
    (n_rounds : nat) (strategy_p1 strategy_p2 : string) (rounds : list nat) :
  Forall (Forall (within bound)) payoff_matrix ->
  forall s s',
    GameTheory.play_rounds payoff_matrix n_rounds strategy_p1 strategy_p2
      rounds s = Some s' ->
    Forall (within bound) (GameTheory.payoffs_p1 s) ->
    Forall (within bound) (GameTheory.payoffs_p2 s) ->
    Forall (within bound) (GameTheory.payoffs_p1 s')
    /\ Forall (within bound) (GameTheory.payoffs_p2 s')
    /\ length (GameTheory.payoffs_p1 s')
       = (length (GameTheory.payoffs_p1 s) + length rounds)%nat
    /\ length (GameTheory.payoffs_p2 s')
       = (length (GameTheory.payoffs_p2 s) + length rounds)%nat.
Proof.
  intro Hm.
  induction rounds as [| k rounds IH]; intros s s' Hrun H1 H2;
    cbn [GameTheory.play_rounds] in Hrun.
  - injection Hrun as <-. cbn [length]. rewrite !Nat.add_0_r. now repeat split.
  - destruct (GameTheory.play_round payoff_matrix n_rounds strategy_p1
                strategy_p2 k s) as [s1 |] eqn:E; cbn [bind] in Hrun;
      [| discriminate].
    unfold GameTheory.play_round in E.
    destruct (GameTheory.cell payoff_matrix (GameTheory.action_p1 s)
                (GameTheory.action_p2 s)) as [x |] eqn:Ex;
      cbn [bind] in E; [| discriminate].
    destruct (GameTheory.cell payoff_matrix (GameTheory.action_p2 s)
                (GameTheory.action_p1 s)) as [y |] eqn:Ey;
      cbn [bind] in E; [| discriminate].
    pose proof (cell_within bound _ _ _ _ Hm Ex) as Wx.
    pose proof (cell_within bound _ _ _ _ Hm Ey) as Wy.
    assert (P : GameTheory.payoffs_p1 s1 = GameTheory.payoffs_p1 s ++ [x]
                /\ GameTheory.payoffs_p2 s1 = GameTheory.payoffs_p2 s ++ [y]).
    { destruct (k <? n_rounds - 1)%nat; injection E as <-; now split. }
    destruct P as [P1 P2].
    destruct (IH s1 s' Hrun) as (F1 & F2 & L1 & L2).
    + rewrite P1. apply Forall_app. split; [exact H1 | now constructor].
    + rewrite P2. apply Forall_app. split; [exact H2 | now constructor].
    + split; [exact F1|]. split; [exact F2|].
      rewrite L1, L2, P1, P2, !length_app. cbn [length]. split; lia.
Qed.

(** Python's [sum] of [n] numbers of magnitude at most [bound]. *)
Lemma py_sum_within (bound : Q) (l : list Q) :
  Forall (within bound) l ->
  within (GameTheory.of_nat (length l) * bound) (GameTheory.py_sum l).
Proof.
  intro Hl. unfold GameTheory.py_sum.
  assert (G : forall acc A,
             within A acc ->
             within (A + GameTheory.of_nat (length l) * bound)
               (fold_left Qplus l acc)).
  { induction Hl as [| x l Hx _ IH]; intros acc A Hacc;
      cbn [fold_left length].
    - unfold GameTheory.of_nat. change (inject_Z (Z.of_nat 0)) with 0.
      destruct Hacc. split; lra.
    - pose proof (IH (acc + x) (A + bound) (within_plus _ _ _ _ Hacc Hx))
        as [I1 I2].
      unfold GameTheory.of_nat in *.
      assert (Ep : inject_Z (Z.of_nat (S (length l))) * bound
                   == inject_Z (Z.of_nat (length l)) * bound + bound)
        by (rewrite inject_nat_succ; ring).
      split; lra. }
  assert (Z0 : within 0 0) by (split; lra).
  destruct (G 0 0 Z0) as [G1 G2]. split; lra.
Qed.

(** X30.  On a two-by-two payoff matrix with entries of magnitude at most
    [2 ^ 100], and for [n_rounds] any integer, [repeated_game_simulation]
    raises exactly when [n_rounds <= 0], where [range(n_rounds)] is empty
    and the cooperation rate divides by the length of an empty history;
    for every positive number of rounds, and whatever the two strategy
    names, it returns, both histories have [n_rounds] entries, and each
    total payoff has magnitude at most [n_rounds * 2 ^ 100]. *)
Theorem repeated_game_needs_a_round
    (payoff_matrix : GameTheory.PayoffMatrix) (strategies : list string)
    (n_rounds : Z) (strategy_p1 strategy_p2 : string) :
  two_by_two payoff_matrix ->
  Forall (Forall (within (2 ^ 100))) payoff_matrix ->
  match AnyRounds.repeated_game_simulation payoff_matrix strategies n_rounds
          strategy_p1 strategy_p2 with
  | None => (n_rounds <= 0)%Z
  | Some r =>
      (0 < n_rounds)%Z
      /\ length (GameTheory.result_history_p1 r) = Z.to_nat n_rounds
      /\ length (GameTheory.result_history_p2 r) = Z.to_nat n_rounds
      /\ within (inject_Z n_rounds * 2 ^ 100) (GameTheory.total_payoff_p1 r)
      /\ within (inject_Z n_rounds * 2 ^ 100) (GameTheory.total_payoff_p2 r)
  end.
Proof.
  intros Hm Hbound. rewrite any_rounds_simulation.
  destruct (Z.to_nat n_rounds) as [| n] eqn:En.
  - cbn. lia.
  - destruct (repeated_game_histories payoff_matrix (S n) strategy_p1
                strategy_p2 Hm strategies (Nat.lt_0_succ n))
      as (r & Hr & Hh1 & Hh2).
    rewrite Hr, Hh1, Hh2, !length_map, !length_seq.
    split; [lia|]. split; [reflexivity|]. split; [reflexivity|].
    unfold GameTheory.repeated_game_simulation in Hr.
    destruct (GameTheory.play_rounds payoff_matrix (S n) strategy_p1
                strategy_p2 (seq 0 (S n)) _) as [s |] eqn:Erun;
      cbn [bind] in Hr; [| discriminate].
    destruct (play_rounds_payoffs (2 ^ 100) _ _ _ _ _ Hbound _ _ Erun)
      as (F1 & F2 & L1 & L2); [constructor | constructor |].
    cbn [GameTheory.payoffs_p1 GameTheory.payoffs_p2 length] in L1, L2.
    rewrite length_seq in L1, L2.
    assert (En' : inject_Z n_rounds == GameTheory.of_nat (S n)).
    { unfold GameTheory.of_nat. rewrite <- En, Z2Nat.id by lia. reflexivity. }
    destruct (pydiv _ _) as [rate1 |] in Hr; cbn [bind] in Hr;
      [| discriminate].
    destruct (pydiv _ _) as [rate2 |] in Hr; cbn [bind] in Hr;
      [| discriminate].
    injection Hr as <-.
    cbn [GameTheory.total_payoff_p1 GameTheory.total_payoff_p2].
    pose proof (py_sum_within _ _ F1) as S1.
    pose proof (py_sum_within _ _ F2) as S2.
    rewrite L1 in S1. rewrite L2 in S2. cbn [Nat.add] in S1, S2.
    destruct S1 as [S1a S1b]. destruct S2 as [S2a S2b].
    rewrite <- En' in S1a, S1b, S2a, S2b.
    split; split; assumption.
Qed.

Lemma repeated_game_needs_a_round_witness :
  match AnyRounds.repeated_game_simulation standard_dilemma
          ["Cooperate"; "Defect"]%string 3 "tit_for_tat" "always_defect" with
  | None => (3 <= 0)%Z
  | Some r =>
      (0 < 3)%Z
      /\ length (GameTheory.result_history_p1 r) = Z.to_nat 3
      /\ length (GameTheory.result_history_p2 r) = Z.to_nat 3
      /\ within (inject_Z 3 * 2 ^ 100) (GameTheory.total_payoff_p1 r)
      /\ within (inject_Z 3 * 2 ^ 100) (GameTheory.total_payoff_p2 r)
  end.
Proof.
  apply (repeated_game_needs_a_round standard_dilemma
           ["Cooperate"; "Defect"]%string 3 "tit_for_tat" "always_defect").
  - intros [| [| a]] [| [| b]] Ha Hb; try lia; discriminate.
  - repeat constructor; decide_bound.
Defined.
